(** * The Hill cipher engine of [src/cipher.py], embedded and verified

    The development follows the class [HillCipher] of [src/cipher.py]
    method by method, with the helpers of the sibling engines under
    [src/backend] and the round-trip check of [src/test_cipher.py] that
    the properties refer to.  Python integers are [Z]; Python's [%] and [//]
    are the floor operations [Z.modulo] and [Z.div]; lists are [seq];
    a [str] is the sequence of its Unicode code points; an exception
    is the [Raise] case of a [result].

    The arithmetic of NumPy is modelled at two levels.  In [Np] the
    64-bit integers are unbounded integers, and the rounded floating-point
    results [int(np.round(np.linalg.det(m)))] and
    [np.round(np.linalg.inv(m) * det)] are the exact integers they
    approximate: the determinant and the adjugate of [m].  This is what
    NumPy computes for the keys the cipher is made for, the keys of
    [small_key] below: of side at most 4 with entries between -25 and 25,
    where no sum of products comes near [2 ^ 63] and the error of the
    floating-point factorisation stays far below the one half that
    rounding forgives.  For larger entries it is not: products wrap
    modulo [2 ^ 64], and a float64 of magnitude [2 ^ 53] or more is an even
    integer whatever the determinant is.  So the properties that depend
    on the value of a product, of a determinant or of an inverse are
    stated for the keys of [small_key].  In [F64] the float64 result of
    [np.linalg.det] is kept, and [is_valid_key_matrix_f64] is the
    validator as it rounds that result; it shows where the validator
    leaves the determinant behind. *)

Set Warnings "-notation-overridden,-ambiguous-paths".
Set Warnings "-notation-incompatible-prefix,-deprecated".
Set Warnings "-redundant-canonical-projection".
From HB Require Import structures.
From Stdlib Require Import ZArith Znumtheory Lia String Ascii ZifyBool.
From mathcomp Require Import boot ssralg matrix.

Set Implicit Arguments.
Unset Strict Implicit.
Unset Printing Implicit Defensive.

Local Open Scope Z_scope.

(** ** Exceptions *)

Inductive exn : Type :=
  | ValueError (msg : string)
  | ZeroDivisionError
  | IndexError
  | LinAlgError
  | OverflowError.

Inductive result (A : Type) : Type :=
  | Ok (a : A)
  | Raise (e : exn).

Arguments Ok {A} a.
Arguments Raise {A} e.

Definition bind {A B : Type} (r : result A) (k : A -> result B) : result B :=
  match r with
  | Ok a => k a
  | Raise e => Raise e
  end.

Notation "'let*' x ':=' r 'in' k" := (bind r (fun x => k))
  (at level 200, x name, r at level 100, k at level 200, only parsing).

(** A comprehension whose element expression may raise: the elements are
    evaluated left to right and the first exception ends the evaluation. *)
Fixpoint mapM {A B : Type} (f : A -> result B) (s : seq A) : result (seq B) :=
  match s with
  | [::] => Ok [::]
  | x :: s' => let* y := f x in let* ys := mapM f s' in Ok (y :: ys)
  end.

(** ** The Python built-ins the cipher calls *)

Module Py.

(** A string is the sequence of its code points. *)
Definition str : Type := seq Z.

(** The string a literal of ASCII characters denotes. *)
Definition lit (s : string) : str :=
  [seq Z.of_nat (nat_of_ascii a) | a <- list_ascii_of_string s].

Definition ord (c : Z) : Z := c.

(** [chr(i)] raises [ValueError] outside [range(0x110000)].  (Beyond the
    range of a C [int] CPython raises [OverflowError] instead; the model
    does not tell the two exceptions apart.) *)
Definition chr (i : Z) : result Z :=
  if (0 <=? i) && (i <? 1114112) then Ok i
  else Raise (ValueError "chr() arg not in range(0x110000)").

(** [str.isalpha] and [str.upper] read the Unicode character database.
    Its first 256 entries (Basic Latin and Latin-1 Supplement) are written
    out below.  The entries from U+0100 on are not part of the repository:
    they are a parameter of the model. *)
Record unicode_tail : Type := UnicodeTail {
  tail_isalpha : Z -> bool;
  tail_upper : Z -> seq Z
}.

Definition between (lo hi c : Z) : bool := (lo <=? c) && (c <=? hi).

(** General category L* among the first 256 code points: A-Z, a-z, the
    ordinal indicators, the micro sign, and the accented letters without
    the multiplication sign (U+00D7) and the division sign (U+00F7). *)
Definition latin1_isalpha (c : Z) : bool :=
  [|| between 65 90 c, between 97 122 c, c =? 170, c =? 181, c =? 186,
      between 192 214 c, between 216 246 c | between 248 255 c].

(** Full upper-case mapping of the first 256 code points: the micro sign
    goes to GREEK CAPITAL LETTER MU, the sharp s to "SS", y with diaeresis
    to U+0178. *)
Definition latin1_upper (c : Z) : seq Z :=
  if between 97 122 c then [:: c - 32]
  else if c =? 181 then [:: 924]
  else if c =? 223 then [:: 83; 83]
  else if between 224 246 c || between 248 254 c then [:: c - 32]
  else if c =? 255 then [:: 376]
  else [:: c].

Section Unicode.

Variable ucd : unicode_tail.

Definition isalpha (c : Z) : bool :=
  if c <? 256 then latin1_isalpha c else tail_isalpha ucd c.

Definition upper_char (c : Z) : seq Z :=
  if c <? 256 then latin1_upper c else tail_upper ucd c.

(** [s.upper()] *)
Definition upper (s : str) : str := flatten [seq upper_char c | c <- s].

End Unicode.

(** [s.replace(old, '')] for a one-character [old]. *)
Definition remove_char (old : Z) (s : str) : str :=
  [seq c <- s | ~~ (c =? old)].

(** [range(0, stop, step)] *)
Definition range (stop step : nat) : result (seq nat) :=
  if (step == 0)%N then Raise (ValueError "range() arg 3 must not be zero")
  else Ok [seq (k * step)%N | k <- iota 0 (stop %/ step + (stop %% step != 0))%N].

(** [s[i:j]] for non-negative [i] and [j] *)
Definition slice {A : Type} (s : seq A) (i j : nat) : seq A :=
  drop i (take j s).

(** [s.rstrip(c)] for a one-character [c]: [s] without the run of [c]
    it ends with. *)
Definition rstrip (c : Z) (s : str) : str :=
  rev (drop (find (fun x => ~~ (x =? c)) (rev s)) (rev s)).

(** [s == t] *)
Fixpoint str_eq (s t : str) : bool :=
  match s, t with
  | [::], [::] => true
  | c :: s', d :: t' => (c =? d) && str_eq s' t'
  | _, _ => false
  end.

(** [d[key]] for a dictionary given by the list of its items, with
    one-character keys; [None] stands for [KeyError]. *)
Fixpoint getitem (d : seq (Z * Z)) (key : Z) : option Z :=
  match d with
  | [::] => None
  | (k, v) :: d' => if key =? k then Some v else getitem d' key
  end.

End Py.

(** ** The NumPy operations the cipher calls *)

Module Np.

(** A two-dimensional integer array: its shape and its rows. *)
Record ndarray : Type := NdArray {
  shape0 : nat;
  shape1 : nat;
  rows : seq (seq Z)
}.

(** Every array NumPy builds has as many rows as [shape0] says, each of
    [shape1] entries. *)
Definition wf (A : ndarray) : bool :=
  (size (rows A) == shape0 A) && all (fun r => size r == shape1 A) (rows A).

(** [np.array(rs)] for a rectangular nested list [rs] *)
Definition array (rs : seq (seq Z)) : ndarray :=
  NdArray (size rs) (size (head [::] rs)) rs.

(** [np.array(v).reshape(-1, 1)] *)
Definition column (v : seq Z) : ndarray :=
  NdArray (size v) 1 [seq [:: x] | x <- v].

(** [A.flatten()] *)
Definition flatten (A : ndarray) : seq Z := seq.flatten (rows A).

(** [A[i, j]] for indices within the shape *)
Definition item (A : ndarray) (i j : nat) : Z :=
  nth 0 (nth [::] (rows A) i) j.

(** The sum of a list of integers *)
Definition sum (s : seq Z) : Z := foldr Z.add 0 s.

(** The inner product of two vectors *)
Definition vdot (u v : seq Z) : Z := sum [seq p.1 * p.2 | p <- zip u v].

(** [A[:, j]] *)
Definition col (A : ndarray) (j : nat) : seq Z := [seq nth 0 r j | r <- rows A].

(** [np.dot(A, B)] of two-dimensional arrays, for sums of products
    within 64 bits *)
Definition dot (A B : ndarray) : result ndarray :=
  if (shape1 A != shape0 B)%N
  then Raise (ValueError "shapes not aligned")
  else Ok (NdArray (shape0 A) (shape1 B)
             [seq [seq vdot r (col B j) | j <- iota 0 (shape1 B)] | r <- rows A]).

(** An elementwise operation on an array *)
Definition map_entries (f : Z -> Z) (A : ndarray) : ndarray :=
  NdArray (shape0 A) (shape1 A) [seq [seq f x | x <- r] | r <- rows A].

(** [A % m], entry by entry *)
Definition modulo (A : ndarray) (m : Z) : ndarray :=
  map_entries (fun x => x mod m) A.

(** [k * A], for products within 64 bits *)
Definition scale (k : Z) (A : ndarray) : ndarray :=
  map_entries (fun x => k * x) A.

(** [np.eye(n, dtype=int)] *)
Definition eye (n : nat) : ndarray :=
  NdArray n n [seq [seq if (i == j)%N then 1 else 0 | j <- iota 0 n] | i <- iota 0 n].

(** [A[i, j] = v], which raises [IndexError] outside the shape *)
Definition setitem (A : ndarray) (i j : nat) (v : Z) : result ndarray :=
  if ((i < shape0 A) && (j < shape1 A))%N
  then Ok (NdArray (shape0 A) (shape1 A)
             (set_nth [::] (rows A) i (set_nth 0 (nth [::] (rows A) i) j v)))
  else Raise IndexError.

(** The sign [(-1) ** k] of a cofactor *)
Definition sign (k : nat) : Z := if odd k then -1 else 1.

(** A list without its entry [k] *)
Definition del {A : Type} (k : nat) (s : seq A) : seq A :=
  take k s ++ drop k.+1 s.

(** The rows without row [i], each without its entry [j]. *)
Definition minor (M : seq (seq Z)) (i j : nat) : seq (seq Z) :=
  [seq del j r | r <- del i M].

(** [np.linalg.det] factorises in floating point and the cipher rounds
    the result with [int(np.round(...))].  The model is the integer this
    rounding recovers whenever the floating-point error stays below one
    half: the determinant itself, here by cofactor expansion along the
    first row of an [n] by [n] array. *)
Fixpoint det_rec (n : nat) (M : seq (seq Z)) : Z :=
  match n with
  | O => 1
  | S n' =>
      sum [seq sign j * nth 0 (head [::] M) j * det_rec n' (minor M 0 j)
          | j <- iota 0 n]
  end.

(** [int(np.round(np.linalg.det(A)))] for a square [A] *)
Definition det (A : ndarray) : Z := det_rec (shape0 A) (rows A).

(** The same for any [A]: [np.linalg.det] raises [LinAlgError] unless
    [A] is square. *)
Definition linalg_det (A : ndarray) : result Z :=
  if (shape0 A != shape1 A)%N then Raise LinAlgError else Ok (det A).

(** [np.round(np.linalg.inv(A) * det).astype(int)] for [det] the rounded
    determinant of [A], not zero: the inverse scaled by the determinant
    is the adjugate, the transposed matrix of cofactors, which the
    rounding recovers under the same proviso as for [det_rec]. *)
Definition adjugate (A : ndarray) : ndarray :=
  let n := shape0 A in
  NdArray n n
    [seq [seq sign (i + j) * det_rec n.-1 (minor (rows A) j i)
         | j <- iota 0 n] | i <- iota 0 n].

End Np.

(** ** The float64 results of [np.linalg.det] *)

Module F64.

(** A float64: a finite value [m * 2 ^ e], an infinity or a NaN. *)
Inductive t : Type :=
  | Finite (m e : Z)
  | Infinity (negative : bool)
  | NaN.

(** A finite float64 has a significand of 53 bits, and an exponent
    between those of the least and of the greatest float64. *)
Definition wf (x : t) : bool :=
  match x with
  | Finite m e => [&& Z.abs m <? 2 ^ 53, -1074 <=? e & e <=? 971]
  | _ => true
  end.

(** The quotient [num / den] rounded to the nearest integer, a tie to
    the even one. *)
Definition round_half_even (num den : Z) : Z :=
  let q := num / den in
  let r := num mod den in
  if 2 * r <? den then q
  else if den <? 2 * r then q + 1
  else if Z.even q then q else q + 1.

(** [int(np.round(x))]: [np.round] rounds to the nearest integer, a tie
    to the even one, and [int] raises for an infinity and for a NaN. *)
Definition int_round (x : t) : result Z :=
  match x with
  | Finite m e =>
      Ok (if 0 <=? e then m * 2 ^ e else round_half_even m (2 ^ (- e)))
  | Infinity _ => Raise OverflowError
  | NaN => Raise (ValueError "cannot convert float NaN to integer")
  end.

(** [np.linalg.det] converts the array to float64, factorises it with
    LAPACK and forms the determinant from the pivots.  The routine is
    not part of the repository: it is a parameter of the model, as the
    character database is. *)
Record lapack : Type := Lapack {
  det : Np.ndarray -> t
}.

(** The float64 nearest to an integer, a tie to the even significand:
    the conversion of an int64 to float64, and the correct rounding of an
    exact result. *)
Definition of_Z (z : Z) : t :=
  if Z.abs z <? 2 ^ 53 then Finite z 0
  else
    let e := Z.log2 (Z.abs z) - 52 in
    let m := round_half_even z (2 ^ e) in
    let '(m, e) := if Z.abs m =? 2 ^ 53 then (m / 2, e + 1) else (m, e) in
    if 971 <? e then Infinity (z <? 0) else Finite m e.

(** The integer a float64 without fraction bits denotes. *)
Definition to_Z (x : t) : Z :=
  match x with
  | Finite m e => m * 2 ^ e
  | _ => 0
  end.

(** [A.astype(np.float64)], for entries that stay finite *)
Definition float64_copy (A : Np.ndarray) : Np.ndarray :=
  Np.map_entries (fun z => to_Z (of_Z z)) A.

(** A determinant routine as accurate as float64 allows: exact on the
    float64 copy of the array, and correctly rounded.  An environment to
    run examples in. *)
Definition exact_on_copy : lapack :=
  Lapack (fun A => of_Z (Np.det (float64_copy A))).

End F64.

(** ** The class [HillCipher] of [src/cipher.py] *)

(** [self.alphabet_size] of [HillCipher()] *)
Definition alphabet_size : Z := 26.

(** [ord('A')] *)
Definition ord_A : Z := Py.ord 65.

(** The [steps_info] dictionaries [encrypt] and [decrypt] return. *)
Record encrypt_steps : Type := EncryptSteps {
  e_original_text : Py.str;
  e_padded_text : Py.str;
  e_text_numbers : seq Z;
  e_key_matrix : Np.ndarray;
  e_blocks : seq (seq Z);
  e_encrypted_blocks : seq (seq Z);
  e_final_numbers : seq Z;
  e_ciphertext : Py.str
}.

Record decrypt_steps : Type := DecryptSteps {
  d_ciphertext : Py.str;
  d_cipher_numbers : seq Z;
  d_key_matrix : Np.ndarray;
  d_inverse_key_matrix : Np.ndarray;
  d_blocks : seq (seq Z);
  d_decrypted_blocks : seq (seq Z);
  d_final_numbers : seq Z;
  d_plaintext : Py.str
}.

(** [numbers_to_text], lines 43-53 *)
Definition numbers_to_text (numbers : seq Z) : result Py.str :=
  mapM (fun num => Py.chr (num + ord_A)) numbers.

(** The loop of [pad_text], lines 66-67.  It runs fewer than [block_size]
    times ([pad_count_lt] below), so [block_size] turns are fuel enough. *)
Fixpoint pad_loop (fuel : nat) (text : Py.str) (block_size : nat) : Py.str :=
  if (size text %% block_size != 0)%N then
    match fuel with
    | O => text
    | S fuel' => pad_loop fuel' (text ++ Py.lit "X") block_size
    end
  else text.

(** [pad_text], lines 55-68: [len(text) % 0] raises. *)
Definition pad_text (text : Py.str) (block_size : nat) : result Py.str :=
  if (block_size == 0)%N then Raise ZeroDivisionError
  else Ok (pad_loop block_size text block_size).

(** [create_text_blocks], lines 70-87 *)
Definition create_text_blocks (numbers : seq Z) (block_size : nat)
  : result (seq Np.ndarray) :=
  let* starts := Py.range (size numbers) block_size in
  Ok [seq Np.column block
     | block <- [seq Py.slice numbers i (i + block_size) | i <- starts]
     & (size block == block_size)%N].

(** The recursion of [gcd_extended], lines 99-104.  The first argument
    shrinks in absolute value at every call, so [|a|] calls are fuel
    enough ([gcd_extended_eq] below). *)
Fixpoint gcd_extended_rec (fuel : nat) (a b : Z) : Z * Z * Z :=
  if a =? 0 then (b, 0, 1)
  else
    match fuel with
    | O => (0, 0, 0)
    | S fuel' =>
        let '(gcd, x1, y1) := gcd_extended_rec fuel' (b mod a) a in
        let x := y1 - (b / a) * x1 in
        let y := x1 in
        (gcd, x, y)
    end.

(** [gcd_extended], lines 89-104 *)
Definition gcd_extended (a b : Z) : Z * Z * Z :=
  gcd_extended_rec (Z.abs_nat a) a b.

(** [mod_inverse], lines 106-120 *)
Definition mod_inverse (a m : Z) : option Z :=
  let '(gcd, x, _) := gcd_extended a m in
  if ~~ (gcd =? 1) then None
  else Some ((x mod m + m) mod m).

(** [matrix_mod_inverse], lines 122-152.  The [except] branch needs
    [np.linalg.inv] to meet a singular matrix, and [det_inv] exists only
    for a determinant that is not zero. *)
Definition matrix_mod_inverse (matrix : Np.ndarray) : result (option Np.ndarray) :=
  let* det := Np.linalg_det matrix in
  match mod_inverse det alphabet_size with
  | None => Ok None
  | Some det_inv =>
      let adj :=
        if (Np.shape0 matrix == 2)%N then
          Np.array [:: [:: Np.item matrix 1 1; - Np.item matrix 0 1];
                       [:: - Np.item matrix 1 0; Np.item matrix 0 0]]
        else Np.adjugate matrix in
      let inv_matrix := Np.modulo (Np.scale det_inv adj) alphabet_size in
      Ok (Some inv_matrix)
  end.

(** [is_valid_key_matrix], lines 154-170 *)
Definition is_valid_key_matrix (key_matrix : Np.ndarray) : bool :=
  if (Np.shape0 key_matrix != Np.shape1 key_matrix)%N then false
  else
    let det := Np.det key_matrix in
    let det_mod := det mod alphabet_size in
    Z.gcd det_mod alphabet_size =? 1.

(** [is_valid_key_matrix], lines 154-170, with the float64 that
    [np.linalg.det] returns kept as it is. *)
Definition is_valid_key_matrix_f64 (la : F64.lapack) (key_matrix : Np.ndarray)
  : result bool :=
  if (Np.shape0 key_matrix != Np.shape1 key_matrix)%N then Ok false
  else
    let* det := F64.int_round (F64.det la key_matrix) in
    let det_mod := det mod alphabet_size in
    Ok (Z.gcd det_mod alphabet_size =? 1).

(** The loop of [generate_random_key_matrix], lines 290-293, over the
    matrices the attempts draw. *)
Fixpoint first_valid (draws : seq Np.ndarray) : option Np.ndarray :=
  match draws with
  | [::] => None
  | matrix :: draws' =>
      if is_valid_key_matrix matrix then Some matrix else first_valid draws'
  end.

Definition max_attempts : nat := 100.

(** [generate_random_key_matrix], lines 279-305.  [randint k] is what the
    call of [np.random.randint] returns in attempt [k]. *)
Definition generate_random_key_matrix (randint : nat -> Np.ndarray) (size : nat)
  : result Np.ndarray :=
  match first_valid [seq randint k | k <- iota 0 max_attempts] with
  | Some matrix => Ok matrix
  | None =>
      if (size == 2)%N then Ok (Np.array [:: [:: 3; 2]; [:: 5; 7]])
      else if (size == 3)%N then
        Ok (Np.array [:: [:: 6; 24; 1]; [:: 13; 16; 10]; [:: 20; 17; 15]])
      else
        let matrix := Np.eye size in
        let* matrix := Np.setitem matrix 0 0 3 in
        let* matrix := Np.setitem matrix 1 1 5 in
        Ok matrix
  end.

(** One turn of the block loops of [encrypt] and [decrypt]:
    [np.dot(m, block) % self.alphabet_size] *)
Definition transform (m block : Np.ndarray) : result Np.ndarray :=
  let* product := Np.dot m block in
  Ok (Np.modulo product alphabet_size).

Section Text.

Variable ucd : Py.unicode_tail.

(** [text_to_numbers], lines 28-41 *)
Definition text_to_numbers (text : Py.str) : seq Z :=
  let text := Py.remove_char 32 (Py.upper ucd text) in
  let text := [seq char <- text | Py.isalpha ucd char] in
  [seq Py.ord char - ord_A | char <- text].

(** [encrypt], lines 172-223 *)
Definition encrypt (plaintext : Py.str) (key_matrix : Np.ndarray)
  : result (Py.str * encrypt_steps) :=
  if ~~ is_valid_key_matrix key_matrix
  then Raise (ValueError "Invalid key matrix: not invertible mod 26")
  else
    let block_size := Np.shape0 key_matrix in
    let original_text := plaintext in
    let* plaintext := pad_text plaintext block_size in
    let numbers := text_to_numbers plaintext in
    let* blocks := create_text_blocks numbers block_size in
    let* encrypted_blocks := mapM (transform key_matrix) blocks in
    let encrypted_numbers := flatten [seq Np.flatten b | b <- encrypted_blocks] in
    let* ciphertext := numbers_to_text encrypted_numbers in
    Ok (ciphertext,
        {| e_original_text := original_text;
           e_padded_text := plaintext;
           e_text_numbers := numbers;
           e_key_matrix := key_matrix;
           e_blocks := [seq Np.flatten b | b <- blocks];
           e_encrypted_blocks := [seq Np.flatten b | b <- encrypted_blocks];
           e_final_numbers := encrypted_numbers;
           e_ciphertext := ciphertext |}).

(** [decrypt], lines 225-277 *)
Definition decrypt (ciphertext : Py.str) (key_matrix : Np.ndarray)
  : result (Py.str * decrypt_steps) :=
  if ~~ is_valid_key_matrix key_matrix
  then Raise (ValueError "Invalid key matrix: not invertible mod 26")
  else
    let* inverse := matrix_mod_inverse key_matrix in
    match inverse with
    | None => Raise (ValueError "Cannot find inverse of key matrix")
    | Some inv_key_matrix =>
        let block_size := Np.shape0 key_matrix in
        let numbers := text_to_numbers ciphertext in
        let* blocks := create_text_blocks numbers block_size in
        let* decrypted_blocks := mapM (transform inv_key_matrix) blocks in
        let decrypted_numbers :=
          flatten [seq Np.flatten b | b <- decrypted_blocks] in
        let* plaintext := numbers_to_text decrypted_numbers in
        Ok (plaintext,
            {| d_ciphertext := ciphertext;
               d_cipher_numbers := numbers;
               d_key_matrix := key_matrix;
               d_inverse_key_matrix := inv_key_matrix;
               d_blocks := [seq Np.flatten b | b <- blocks];
               d_decrypted_blocks := [seq Np.flatten b | b <- decrypted_blocks];
               d_final_numbers := decrypted_numbers;
               d_plaintext := plaintext |})
    end.

End Text.

(** [get_character_mapping], lines 307-314.  The keys [chr(i + ord('A'))]
    are pairwise distinct, so the dictionary is the list of its items in
    the order of [range(26)]. *)
Definition get_character_mapping : result (seq (Z * Z)) :=
  mapM (fun i => let* char := Py.chr (i + ord_A) in Ok (char, i))
       [seq Z.of_nat i | i <- iota 0 26].

(** [decrypt(encrypt(plaintext, key)[0], key)[0]] *)
Definition roundtrip (ucd : Py.unicode_tail) (plaintext : Py.str)
    (key_matrix : Np.ndarray) : result Py.str :=
  let* encrypted := encrypt ucd plaintext key_matrix in
  let* decrypted := decrypt ucd encrypted.1 key_matrix in
  Ok decrypted.1.

(** ** The tests of [src/test_cipher.py] *)

(** Lines 27-42 and 52-65: the verdict of Test 1 and of Test 2 on a
    plaintext and a key, [true] for PASS.  For a key that is not valid
    the tests print no verdict.  [src/integration_test.py] makes the same
    comparison in lines 87-90. *)
Definition test_verdict (ucd : Py.unicode_tail) (plaintext : Py.str)
    (key_matrix : Np.ndarray) : result (option bool) :=
  let is_valid := is_valid_key_matrix key_matrix in
  if is_valid then
    let* encrypted := encrypt ucd plaintext key_matrix in
    let ciphertext := encrypted.1 in
    let* decrypted := decrypt ucd ciphertext key_matrix in
    let decrypted_text := decrypted.1 in
    let original_cleaned := Py.remove_char 32 (Py.upper ucd plaintext) in
    let decrypted_cleaned := Py.rstrip 88 decrypted_text in
    Ok (Some (Py.str_eq original_cleaned decrypted_cleaned))
  else Ok None.

(** ** The sibling engines under [src/backend] *)

(** [src/backend/hillcipher.py] *)
Module Backend.

(** [self.m] *)
Definition m : Z := 26.

(** [_nums_to_text], lines 33-34 *)
Definition _nums_to_text (nums : seq Z) : result Py.str :=
  mapM (fun n => Py.chr (n mod m + 65)) nums.

(** [_text_to_nums], lines 30-31 *)
Definition _text_to_nums (ucd : Py.unicode_tail) (text : Py.str) : seq Z :=
  [seq Py.ord c - 65 | c <- Py.upper ucd text & Py.isalpha ucd c].

(** The recursion of [_egcd], lines 21-22, with the fuel of
    [gcd_extended_rec]. *)
Fixpoint _egcd_rec (fuel : nat) (a b : Z) : Z * Z * Z :=
  if a =? 0 then (b, 0, 1)
  else
    match fuel with
    | O => (0, 0, 0)
    | S fuel' =>
        (fun '(g, x, y) => (g, y - (b / a) * x, x)) (_egcd_rec fuel' (b mod a) a)
    end.

(** [_egcd], lines 21-22 *)
Definition _egcd (a b : Z) : Z * Z * Z := _egcd_rec (Z.abs_nat a) a b.

(** [_modinv], lines 16-19: [a % 0] raises. *)
Definition _modinv (a m : Z) : result Z :=
  if m =? 0 then Raise ZeroDivisionError
  else
    let '(g, x, _) := _egcd (a mod m) m in
    if ~~ (g =? 1) then Raise (ValueError "No inverse")
    else Ok (x mod m).

End Backend.

(** [src/backend/hill_cypher.py] *)
Module HillCypher.

Section Text.

Variable ucd : Py.unicode_tail.

(** [_text_to_numbers], lines 23-26 *)
Definition _text_to_numbers (text : Py.str) : seq Z :=
  let text := Py.remove_char 32 (Py.upper ucd text) in
  [seq Py.ord char - ord_A | char <- text & Py.isalpha ucd char].

(** The loop of [_pad_text], lines 34-35, with the fuel of [pad_loop]. *)
Fixpoint _pad_loop (fuel : nat) (numbers : seq Z) (n : nat) : seq Z :=
  if (size numbers %% n != 0)%N then
    match fuel with
    | O => numbers
    | S fuel' => _pad_loop fuel' (rcons numbers 23) n
    end
  else numbers.

(** [_pad_text], lines 32-36, for [self.n = n] *)
Definition _pad_text (n : nat) (numbers : seq Z) : result (seq Z) :=
  if (n == 0)%N then Raise ZeroDivisionError
  else Ok (_pad_loop n numbers n).

(** The numbers [encrypt] works on, lines 71-72 *)
Definition encrypt_numbers (n : nat) (plaintext : Py.str) : result (seq Z) :=
  let numbers := _text_to_numbers plaintext in
  _pad_text n numbers.

End Text.

(** [_mod_inverse], lines 53-66; its local [extended_gcd] is
    [gcd_extended] word for word. *)
Definition _mod_inverse (a m : Z) : result Z :=
  if m =? 0 then Raise ZeroDivisionError
  else
    let '(gcd, x, _) := gcd_extended (a mod m) m in
    if ~~ (gcd =? 1) then Raise (ValueError "Modular inverse does not exist")
    else Ok ((x mod m + m) mod m).

End HillCypher.

(** ** The key matrices of the tests *)

(** [src/test_cipher.py], lines 20, 46 and 69 *)
Definition key_matrix_2x2 : Np.ndarray := Np.array [:: [:: 3; 2]; [:: 5; 7]].

Definition key_matrix_3x3 : Np.ndarray :=
  Np.array [:: [:: 6; 24; 1]; [:: 13; 16; 10]; [:: 20; 17; 15]].

Definition invalid_key : Np.ndarray := Np.array [:: [:: 2; 4]; [:: 6; 8]].

(** [src/integration_test.py], line 145 *)
Definition non_square : Np.ndarray := Np.array [:: [:: 1; 2; 3]; [:: 4; 5; 6]].

(** Two keys of determinant -1: a key with entries as a user types them,
    and the matrix that swaps the two letters of a block. *)
Definition negative_key : Np.ndarray := Np.array [:: [:: 1; 2]; [:: 3; 5]].

Definition swap_key : Np.ndarray := Np.array [:: [:: 0; 1]; [:: 1; 0]].

(** A key as [src/cli.py] reads it from the command line, with the entry
    [2 ^ 60 + 1]. *)
Definition big_key : Np.ndarray :=
  Np.array [:: [:: 1152921504606846977; 0]; [:: 0; 1]].

(** A key with negative entries, which is [key_matrix_2x2] modulo 26. *)
Definition signed_key : Np.ndarray := Np.array [:: [:: -23; 2]; [:: 5; -19]].

(** The character database cut after U+00FF: no letter and no case
    mapping beyond Latin-1.  An environment to run examples in. *)
Definition latin1_only : Py.unicode_tail :=
  Py.UnicodeTail (fun _ => false) (fun c => [:: c]).

(** ** Notions the statements use *)

(** The full blocks [create_text_blocks] keeps, as lists. *)
Definition full_blocks (numbers : seq Z) (bs : nat) : seq (seq Z) :=
  [seq block
  | block <- [seq Py.slice numbers i (i + bs)
             | i <- [seq (k * bs)%N
                    | k <- iota 0 (size numbers %/ bs + (size numbers %% bs != 0))%N]]
  & (size block == bs)%N].

(** What one turn of the block loop computes on a block of the key's
    width: a residue per row of the matrix. *)
Definition apply_key (m : Np.ndarray) (v : seq Z) : seq Z :=
  [seq Np.vdot r v mod alphabet_size | r <- Np.rows m].

(** The keys for which NumPy computes what [Np] computes: a square of
    side at most 4 with entries between -25 and 25, as
    [generate_random_key_matrix] draws and the tests use.  The
    determinant of such a key is below [2 ^ 24] in magnitude and its
    cofactors below [2 ^ 17], the float64 factorisation errs by less than
    one half on either, and with the numbers of a text, which are below
    [2 ^ 21], no sum of four products reaches [2 ^ 63]. *)
Definition small_key (K : Np.ndarray) : bool :=
  [&& Np.wf K, (Np.shape0 K <= 4)%N
    & all (all (Py.between (-25) 25)) (Np.rows K)].

(** A float64 less than one half away from the integer [d]. *)
Definition near (x : F64.t) (d : Z) : bool :=
  match x with
  | F64.Finite m e =>
      if 0 <=? e then m * 2 ^ e =? d
      else 2 * Z.abs (m - d * 2 ^ (- e)) <? 2 ^ (- e)
  | _ => false
  end.

(** A finite float64 of magnitude [2 ^ 53] or more. *)
Definition large (x : F64.t) : bool :=
  match x with
  | F64.Finite m e => (0 <=? e) && (2 ^ 53 <=? Z.abs m * 2 ^ e)
  | _ => false
  end.

(** [encrypt(plaintext, key_matrix)[0]] *)
Definition ciphertext_of (r : result (Py.str * encrypt_steps)) : result Py.str :=
  let* encrypted := r in Ok encrypted.1.

(** The letters A-Z and a-z, and their upper case. *)
Definition ascii_letter (c : Z) : bool :=
  Py.between 65 90 c || Py.between 97 122 c.

Definition ascii_upper (c : Z) : Z :=
  if Py.between 97 122 c then c - 32 else c.

(** How many times the loop of [pad_text] runs on a text of length
    [len]. *)
Definition pad_count (len block_size : nat) : nat :=
  ((block_size - len %% block_size) %% block_size)%N.

(** The matrix an [n] by [n] array of rows denotes. *)
Definition mx_of (n : nat) (M : seq (seq Z)) : 'M[Z]_n :=
  \matrix_(i, j) nth 0 (nth [::] M i) j.

(** An encoding of the integers by sign and magnitude, to carry the
    structures of [bool * nat] over to [Z]. *)
Definition Z_code (z : Z) : bool * nat := (z <? 0, Z.abs_nat z).

Definition Z_decode (p : bool * nat) : Z :=
  if p.1 then - Z.of_nat p.2 else Z.of_nat p.2.

(** * Properties *)

(** ** Lists and results *)

Lemma small_key_wf (K : Np.ndarray) : small_key K -> Np.wf K.
Proof. by case/and3P. Qed.

Lemma mapM_ok (A B : Type) (f : A -> result B) (g : A -> B) (P : pred A) s :
  (forall x, P x -> f x = Ok (g x)) -> all P s -> mapM f s = Ok [seq g x | x <- s].
Proof.
move=> fg; elim: s => [|x s IH] //= /andP[Px Ps].
by rewrite (fg _ Px) /= (IH Ps).
Qed.

Lemma mapM_map_ok (A B C : Type) (f : B -> result C) (h : A -> B) (g : A -> C)
    (P : pred A) s :
  (forall x, P x -> f (h x) = Ok (g x)) -> all P s ->
  mapM f [seq h x | x <- s] = Ok [seq g x | x <- s].
Proof.
move=> fg; elim: s => [|x s IH] //= /andP[Px Ps].
by rewrite (fg _ Px) /= (IH Ps).
Qed.

Lemma all_always (A : Type) (p : pred A) s : (forall x, p x) -> all p s.
Proof. by move=> px; elim: s => //= x s ->; rewrite px. Qed.

Lemma all_flatten (A : Type) (p : pred A) (ss : seq (seq A)) :
  all p (flatten ss) = all (all p) ss.
Proof. by elim: ss => //= s ss <-; rewrite all_cat. Qed.

Lemma all_and (A : Type) (P Q : pred A) (s : seq A) :
  all P s -> all Q s -> all (fun x => P x && Q x) s.
Proof. by elim: s => //= x s IH /andP[-> Ps] /andP[-> Qs]; apply: IH. Qed.

Lemma map_id_all (A : Type) (P : pred A) (f : A -> A) (s : seq A) :
  (forall x, P x -> f x = x) -> all P s -> [seq f x | x <- s] = s.
Proof. by move=> fP; elim: s => //= x s IH /andP[/fP -> /IH ->]. Qed.

Lemma size_flatten_blocks (A : Type) (n : nat) (ss : seq (seq A)) :
  all (fun s => size s == n)%N ss -> size (flatten ss) = (size ss * n)%N.
Proof.
by elim: ss => //= s ss IH /andP[/eqP sz /IH]; rewrite size_cat sz mulSn => ->.
Qed.

Lemma flatten_singletons (A : Type) (s : seq A) : flatten [seq [:: x] | x <- s] = s.
Proof. by elim: s => //= x s ->. Qed.

(** ** Padding *)

(** The loop of [pad_text] ends by its own condition: with the fuel it
    is given the length it reaches is a multiple of the block size. *)
Lemma pad_loop_enough (bs : nat) : (0 < bs)%N -> forall fuel text,
  ((size text %% bs == 0) || (bs - size text %% bs <= fuel))%N ->
  (size (pad_loop fuel text bs) %% bs = 0)%N.
Proof.
move=> bs_gt0; elim=> [|fuel IH] text /=.
- case: eqP => [-> //|_] /=.
  by rewrite leqn0 subn_eq0 leqNgt ltn_pmod.
- case: eqP => [-> //|_] /= Hle.
  apply: IH; rewrite size_cat /= addn1 modnS.
  case: ifP => [//|_] /=.
  by rewrite subnS -subn1 leq_subLR add1n.
Qed.

(** For a block size of at least 1 [pad_text] returns, and the length of
    the text it returns is a multiple of the block size. *)
Lemma pad_text_ok text bs : (0 < bs)%N ->
  exists2 padded, pad_text text bs = Ok padded & (size padded %% bs = 0)%N.
Proof.
move=> bs_gt0; rewrite /pad_text eqn0Ngt bs_gt0 /=.
exists (pad_loop bs text bs) => //.
apply: pad_loop_enough => //.
by rewrite leq_subr orbT.
Qed.

Lemma pad_text_ok_witness :
  exists2 padded, pad_text (Py.lit "HELLO") 2 = Ok padded
                & (size padded %% 2 = 0)%N.
Proof. exact: (@pad_text_ok (Py.lit "HELLO") 2 isT). Defined.

Lemma dvdn_succ_mod (m d : nat) : (d %| m.+1)%N -> ((m %% d).+1 = d)%N.
Proof.
case: d => [|d]; first by rewrite dvd0n.
move=> dvd; apply/eqP; rewrite eqn_leq ltn_pmod //=.
rewrite leqNgt; apply/negP => lt_d.
move: dvd; rewrite /dvdn modnS; case: ifP => [dvd _|//].
by move: dvd; rewrite /dvdn -addn1 -modnDml addn1 modn_small // .
Qed.

Lemma pad_count_step (len bs : nat) :
  (0 < bs)%N -> (len %% bs != 0)%N ->
  pad_count len bs = (pad_count len.+1 bs).+1.
Proof.
move=> bs_gt0 r_neq0; rewrite /pad_count modnS.
have := ltn_pmod len bs_gt0; have := @dvdn_succ_mod len bs.
move: r_neq0; set r := (len %% bs)%N => r_neq0 succ r_lt.
have sub_lt : (bs - r < bs)%N by rewrite ltn_subrL bs_gt0 lt0n r_neq0.
rewrite (modn_small sub_lt); case: ifP => [/succ <-|ndvd].
  by rewrite subSnn subn0 modnn.
have lt2 : (r.+1 < bs)%N.
  rewrite ltn_neqAle r_lt andbT; apply/negP => /eqP eq_bs.
  by move: ndvd; rewrite /dvdn modnS /dvdn -/r -addn1 -modnDml -/r addn1 eq_bs modnn.
have sub_lt2 : (bs - r.+1 < bs)%N by rewrite ltn_subrL bs_gt0.
by rewrite (modn_small sub_lt2) subnS prednK // subn_gt0.
Qed.

Lemma pad_loop_nseq (bs : nat) : (0 < bs)%N -> forall fuel text,
  (pad_count (size text) bs <= fuel)%N ->
  pad_loop fuel text bs = text ++ nseq (pad_count (size text) bs) 88.
Proof.
move=> bs_gt0; elim=> [|fuel IH] text.
  rewrite leqn0 /pad_count /= => /eqP count0; rewrite count0 cats0.
  by case: ifP.
rewrite /=; case: eqP => [r0|/eqP r_neq0] /=.
  by rewrite /pad_count r0 subn0 modnn cats0.
rewrite (pad_count_step bs_gt0 r_neq0) ltnS => le_fuel.
by rewrite IH size_cat /= addn1 // -catA.
Qed.

Lemma pad_count_lt len bs : (0 < bs)%N -> (pad_count len bs < bs)%N.
Proof. by move=> bs_gt0; rewrite /pad_count ltn_pmod. Qed.

(** What [pad_text] appends: [pad_count] letters X. *)
Lemma pad_text_eq text bs :
  (0 < bs)%N -> pad_loop bs text bs = text ++ nseq (pad_count (size text) bs) 88.
Proof. by move=> bs_gt0; apply: pad_loop_nseq => //; apply/ltnW/pad_count_lt. Qed.

Lemma pad_count_dvd len bs : (0 < bs)%N -> (bs %| len + pad_count len bs)%N.
Proof.
move=> bs_gt0; rewrite /dvdn /pad_count modnDmr.
have r_le : (len %% bs <= bs)%N by apply/ltnW; rewrite ltn_pmod.
by rewrite {1}(divn_eq len bs) -addnA (subnKC r_le) modnMDl modnn.
Qed.

(** ** Blocks *)

Lemma create_text_blocks_ok numbers bs : (0 < bs)%N ->
  create_text_blocks numbers bs = Ok [seq Np.column b | b <- full_blocks numbers bs].
Proof.
move=> gt0; rewrite /create_text_blocks /Py.range eqn0Ngt gt0 /=.
by rewrite /full_blocks -!map_comp.
Qed.

Lemma full_blocks_size numbers bs :
  all (fun b => size b == bs)%N (full_blocks numbers bs).
Proof. by rewrite /full_blocks map_id; apply: filter_all. Qed.

Lemma slice_cat_skip (n : nat) (b rest : seq Z) (i j : nat) :
  size b = n -> Py.slice (b ++ rest) (n + i) (n + j) = Py.slice rest i j.
Proof.
move=> <-; rewrite /Py.slice take_cat ltnNge leq_addr /= addKn.
by rewrite drop_cat ltnNge leq_addr /= addKn.
Qed.

Lemma slices_flatten (n : nat) (B : seq (seq Z)) :
  all (fun b => size b == n)%N B ->
  [seq Py.slice (flatten B) (k * n) (k * n + n) | k <- iota 0 (size B)] = B.
Proof.
elim: B => [|b B IH] //= /andP[/eqP size_b sizes].
rewrite mul0n add0n {1}/Py.slice drop0 -{1}size_b take_size_cat //.
congr (_ :: _); rewrite -[in RHS](IH sizes) (iotaDl 1 0) -map_comp.
apply: eq_map => k /=.
by rewrite add1n mulSn -addnA (slice_cat_skip _ _ _ size_b).
Qed.

Lemma full_blocks_flatten (n : nat) (B : seq (seq Z)) :
  (0 < n)%N -> all (fun b => size b == n)%N B -> full_blocks (flatten B) n = B.
Proof.
move=> n_gt0 sizes; rewrite /full_blocks map_id -map_comp.
rewrite (size_flatten_blocks sizes) mulnK // modnMl eqxx addn0.
rewrite (@eq_map _ _ _ (fun k => Py.slice (flatten B) (k * n) (k * n + n))) //.
by rewrite slices_flatten //; apply/all_filterP.
Qed.

Lemma shape_nseq_sizes (n q : nat) (B : seq (seq Z)) :
  shape B = nseq q n -> all (fun b => size b == n)%N B.
Proof.
by rewrite /shape; elim: B q => [|b B IH] [|q] //= [-> /IH ->]; rewrite eqxx.
Qed.

Lemma flatten_full_blocks (n : nat) (xs : seq Z) :
  (0 < n)%N -> (n %| size xs)%N ->
  flatten (full_blocks xs n) = xs /\
  all (fun b => size b == n)%N (full_blocks xs n).
Proof.
move=> n_gt0 /dvdnP[q size_xs].
have sumE : sumn (nseq q n) = size xs by rewrite sumn_nseq mulnC.
have flatB : flatten (reshape (nseq q n) xs) = xs.
  by apply: reshapeKr; rewrite sumE.
have sizes : all (fun b => size b == n)%N (reshape (nseq q n) xs).
  by apply: (@shape_nseq_sizes n q); apply: reshapeKl; rewrite sumE.
by rewrite -{1 3}flatB full_blocks_flatten.
Qed.

(** ** Text *)

Lemma chr_letter n : Py.between 0 25 n -> Py.chr (n + ord_A) = Ok (n + 65).
Proof.
rewrite /Py.between /Py.chr /ord_A /Py.ord /is_true => H.
by have -> : (0 <=? n + 65) && (n + 65 <? 1114112) = true by lia.
Qed.

Lemma numbers_to_text_residues ns :
  all (Py.between 0 25) ns -> numbers_to_text ns = Ok [seq n + 65 | n <- ns].
Proof. by move=> H; rewrite /numbers_to_text (mapM_ok chr_letter H). Qed.

Section TextFacts.

Variable ucd : Py.unicode_tail.

Lemma text_to_numbers_cat s1 s2 :
  text_to_numbers ucd (s1 ++ s2) = text_to_numbers ucd s1 ++ text_to_numbers ucd s2.
Proof.
by rewrite /text_to_numbers /Py.upper /Py.remove_char map_cat flatten_cat
           !filter_cat map_cat.
Qed.

Lemma upper_letter c : ascii_letter c -> Py.upper_char ucd c = [:: ascii_upper c].
Proof.
rewrite /ascii_letter /ascii_upper /Py.upper_char /Py.latin1_upper /Py.between.
rewrite /is_true => letter.
have -> : (c <? 256) = true by lia.
case: ((97 <=? c) && (c <=? 122)) letter => // upper.
have -> : (c =? 181) = false by lia.
have -> : (c =? 223) = false by lia.
have -> : (224 <=? c) && (c <=? 246) || (248 <=? c) && (c <=? 254) = false by lia.
by have -> : (c =? 255) = false by lia.
Qed.

Lemma isalpha_upper_letter c :
  ascii_letter c ->
  Py.between 65 90 (ascii_upper c) /\ Py.isalpha ucd (ascii_upper c).
Proof.
rewrite /ascii_letter /ascii_upper /Py.isalpha /Py.latin1_isalpha /Py.between.
rewrite /is_true => letter.
case lower: ((97 <=? c) && (c <=? 122)).
- have -> : (c - 32 <? 256) = true by lia.
  by have -> : (65 <=? c - 32) && (c - 32 <=? 90) = true by lia.
- have -> : (c <? 256) = true by lia.
  by have -> : (65 <=? c) && (c <=? 90) = true by lia.
Qed.

Lemma text_to_numbers_letter c :
  ascii_letter c -> text_to_numbers ucd [:: c] = [:: ascii_upper c - 65].
Proof.
move=> letter; have [upper alpha] := isalpha_upper_letter letter.
have -> : text_to_numbers ucd [:: c]
  = [seq Py.ord char - ord_A
    | char <- [seq char <- Py.remove_char 32 (Py.upper_char ucd c)
              | Py.isalpha ucd char]].
  by rewrite /text_to_numbers /Py.upper /= cats0.
have not_space : (ascii_upper c =? 32) = false.
  by move: upper; rewrite /Py.between /is_true; lia.
by rewrite upper_letter // /Py.remove_char /= not_space /= alpha.
Qed.

Lemma text_to_numbers_letters s :
  all ascii_letter s -> text_to_numbers ucd s = [seq ascii_upper c - 65 | c <- s].
Proof.
elim: s => [|c s IH] //= /andP[letter letters].
by rewrite -cat1s text_to_numbers_cat text_to_numbers_letter // IH.
Qed.

Lemma text_to_numbers_residues s :
  all ascii_letter s -> all (Py.between 0 25) (text_to_numbers ucd s).
Proof.
move=> letters; rewrite text_to_numbers_letters // all_map.
apply: sub_all letters => c /isalpha_upper_letter[upper _] /=.
by move: upper; rewrite /Py.between /is_true; lia.
Qed.

(** Encoding the text of a list of residues gives the residues back. *)
Lemma text_to_numbers_of_residues (ns : seq Z) :
  all (Py.between 0 25) ns -> text_to_numbers ucd [seq n + 65 | n <- ns] = ns.
Proof.
move=> residues.
have letters : all ascii_letter [seq n + 65 | n <- ns].
  rewrite all_map; apply: sub_all residues => n /=.
  by rewrite /ascii_letter /Py.between /is_true; lia.
rewrite (text_to_numbers_letters letters) -map_comp.
elim: ns residues {letters} => //= n ns IH /andP[n_res /IH ->].
rewrite /ascii_upper /Py.between.
have -> : (97 <=? n + 65) && (n + 65 <=? 122) = false.
  by move: n_res; rewrite /Py.between /is_true; lia.
by congr (_ :: _); lia.
Qed.

End TextFacts.

(** ** One turn of the block loop *)

Lemma col_column v : Np.col (Np.column v) 0 = v.
Proof. by rewrite /Np.col /= -map_comp; elim: v => //= x v ->. Qed.

Lemma transform_column m v : Np.shape1 m = size v ->
  transform m (Np.column v) =
  Ok (Np.NdArray (Np.shape0 m) 1 [seq [:: x] | x <- apply_key m v]).
Proof.
move=> sz; rewrite /transform /Np.dot /= sz eqxx /=.
rewrite /Np.modulo /Np.map_entries /= col_column /apply_key.
by rewrite -!map_comp.
Qed.

Lemma flatten_columns (B : seq (seq Z)) :
  [seq Np.flatten b | b <- [seq Np.column v | v <- B]] = B.
Proof.
rewrite -map_comp -[RHS]map_id; apply: eq_map => v /=.
by rewrite /Np.flatten /= flatten_singletons.
Qed.

Lemma flatten_transformed n (f : seq Z -> seq Z) (B : seq (seq Z)) :
  [seq Np.flatten b | b <- [seq Np.NdArray n 1 [seq [:: x] | x <- f v] | v <- B]]
  = [seq f v | v <- B].
Proof.
rewrite -map_comp; apply: eq_map => v /=.
by rewrite /Np.flatten /= flatten_singletons.
Qed.

Lemma mapM_transform m (n : nat) (B : seq (seq Z)) :
  Np.shape1 m = n -> all (fun b => size b == n)%N B ->
  mapM (transform m) [seq Np.column b | b <- B] =
  Ok [seq Np.NdArray (Np.shape0 m) 1 [seq [:: x] | x <- apply_key m v] | v <- B].
Proof.
move=> shape_m; apply: mapM_map_ok => v /eqP sz.
by apply: transform_column; rewrite shape_m.
Qed.

Lemma apply_key_residues m v : all (Py.between 0 25) (apply_key m v).
Proof.
rewrite /apply_key all_map; apply: all_always => r /=.
rewrite /Py.between /alphabet_size.
have := Z.mod_pos_bound (Np.vdot r v) 26.
rewrite /is_true; lia.
Qed.

Lemma apply_key_size m v : Np.wf m -> size (apply_key m v) = Np.shape0 m.
Proof. by case/andP => /eqP <- _; rewrite size_map. Qed.

Lemma all_residues K (B : seq (seq Z)) :
  all (Py.between 0 25) (flatten [seq apply_key K v | v <- B]).
Proof.
rewrite all_flatten all_map; apply: all_always => v /=.
exact: apply_key_residues.
Qed.

Lemma valid_square K : is_valid_key_matrix K -> Np.shape0 K = Np.shape1 K.
Proof. by rewrite /is_valid_key_matrix; case: eqP. Qed.

(** ** The closed forms of [encrypt] and [decrypt] *)

Section EncryptForm.

Variable ucd : Py.unicode_tail.
Variables (plaintext : Py.str) (K : Np.ndarray).
Hypothesis valid_K : is_valid_key_matrix K.
Hypothesis pos_K : (0 < Np.shape0 K)%N.

Let bs := Np.shape0 K.
Let padded := pad_loop bs plaintext bs.
Let numbers := text_to_numbers ucd padded.
Let blocks := full_blocks numbers bs.
Let encrypted := [seq apply_key K b | b <- blocks].

Lemma encrypt_eq :
  encrypt ucd plaintext K =
  Ok ([seq n + 65 | n <- flatten encrypted],
      {| e_original_text := plaintext;
         e_padded_text := padded;
         e_text_numbers := numbers;
         e_key_matrix := K;
         e_blocks := blocks;
         e_encrypted_blocks := encrypted;
         e_final_numbers := flatten encrypted;
         e_ciphertext := [seq n + 65 | n <- flatten encrypted] |}).
Proof.
rewrite /encrypt valid_K /pad_text eqn0Ngt pos_K [LHS]/=.
rewrite create_text_blocks_ok // [LHS]/=.
rewrite (mapM_transform (esym (valid_square valid_K)) (full_blocks_size _ _)) [LHS]/=.
by rewrite flatten_columns flatten_transformed numbers_to_text_residues ?all_residues.
Qed.

End EncryptForm.

Section DecryptForm.

Variable ucd : Py.unicode_tail.
Variables (ciphertext : Py.str) (K inv : Np.ndarray).
Hypothesis valid_K : is_valid_key_matrix K.
Hypothesis pos_K : (0 < Np.shape0 K)%N.
Hypothesis inv_K : matrix_mod_inverse K = Ok (Some inv).
Hypothesis shape_inv : Np.shape1 inv = Np.shape0 K.

Let bs := Np.shape0 K.
Let numbers := text_to_numbers ucd ciphertext.
Let blocks := full_blocks numbers bs.
Let decrypted := [seq apply_key inv b | b <- blocks].

Lemma decrypt_eq :
  decrypt ucd ciphertext K =
  Ok ([seq n + 65 | n <- flatten decrypted],
      {| d_ciphertext := ciphertext;
         d_cipher_numbers := numbers;
         d_key_matrix := K;
         d_inverse_key_matrix := inv;
         d_blocks := blocks;
         d_decrypted_blocks := decrypted;
         d_final_numbers := flatten decrypted;
         d_plaintext := [seq n + 65 | n <- flatten decrypted] |}).
Proof.
rewrite /decrypt valid_K inv_K [LHS]/=.
rewrite create_text_blocks_ok // [LHS]/=.
rewrite (mapM_transform shape_inv (full_blocks_size _ _)) [LHS]/=.
by rewrite flatten_columns flatten_transformed numbers_to_text_residues ?all_residues.
Qed.

End DecryptForm.

(** ** [gcd_extended] and [mod_inverse] *)

Lemma gcd_extended_rec_fuel fuel1 fuel2 a b :
  (Z.abs_nat a <= fuel1)%N -> (Z.abs_nat a <= fuel2)%N ->
  gcd_extended_rec fuel1 a b = gcd_extended_rec fuel2 a b.
Proof.
elim: fuel1 fuel2 a b => [|f1 IH] [|f2] a b /leP H1 /leP H2 /=;
  case: Z.eqb_spec => // a0; try lia.
rewrite (IH f2) //; apply/leP.
- have := Z.mod_bound_or b a a0; lia.
- have := Z.mod_bound_or b a a0; lia.
Qed.

(** The recursion equation of the source. *)
Lemma gcd_extended_eq a b :
  gcd_extended a b =
  if a =? 0 then (b, 0, 1)
  else
    let '(gcd, x1, y1) := gcd_extended (b mod a) a in
    (gcd, y1 - (b / a) * x1, x1).
Proof.
rewrite /gcd_extended; case E: (Z.abs_nat a) => [|f] /=.
  by have -> : a = 0 by lia.
case: Z.eqb_spec => // a0.
rewrite (@gcd_extended_rec_fuel f (Z.abs_nat (b mod a))) //; apply/leP.
have := Z.mod_bound_or b a a0; lia.
Qed.

(** Bezout's identity holds for every pair of integers, and the first
    component is the greatest common divisor up to the sign of [a]. *)
Lemma gcd_extended_spec a b :
  let '(gcd, x, y) := gcd_extended a b in
  [/\ a * x + b * y = gcd,
      a = 0 -> gcd = b,
      0 < a -> gcd = Z.gcd a b
    & a < 0 -> gcd = - Z.gcd a b].
Proof.
have [n] := ubnP (Z.abs_nat a); elim: n a b => // n IH a b /ltP le_a.
rewrite gcd_extended_eq; case: Z.eqb_spec => [->|a0].
  by split=> //; lia.
have lt_r : (Z.abs_nat (b mod a) < n)%N.
  by apply/ltP; have := Z.mod_bound_or b a a0; lia.
have := IH (b mod a) a lt_r.
case: (gcd_extended (b mod a) a) => [[g x1] y1] [bez g0 gpos gneg].
have gcdE : Z.gcd (b mod a) a = Z.gcd a b by rewrite Z.gcd_mod.
have mod_bound := Z.mod_bound_or b a a0.
have modE := Z.div_mod b a a0.
split=> //.
- nia.
- move=> a_pos; have [r0|r0] : b mod a = 0 \/ 0 < b mod a by lia.
  + by rewrite -gcdE r0 Z.gcd_0_l g0 //; lia.
  + by rewrite -gcdE gpos.
- move=> a_neg; have [r0|r0] : b mod a = 0 \/ b mod a < 0 by lia.
  + by rewrite -gcdE r0 Z.gcd_0_l g0 //; lia.
  + by rewrite -gcdE gneg.
Qed.

(** [gcd_extended] returns coefficients of Bezout's identity, for every
    pair of integers. *)
Theorem gcd_extended_bezout (a b : Z) :
  let '(gcd, x, y) := gcd_extended a b in a * x + b * y = gcd.
Proof.
by have := gcd_extended_spec a b; case: (gcd_extended a b) => [[g x] y] [].
Qed.

(** No negative number has an inverse according to [mod_inverse]. *)
Lemma mod_inverse_negative a m : a < 0 -> mod_inverse a m = None.
Proof.
move=> a_neg; rewrite /mod_inverse.
have := gcd_extended_spec a m.
case: (gcd_extended a m) => [[g x] y] [_ _ _ /(_ a_neg) ->].
by case: Z.eqb_spec => //; have := Z.gcd_nonneg a m; lia.
Qed.

Lemma mod_inverse_positive a m :
  0 < a -> 1 < m -> Z.gcd a m = 1 ->
  exists x, [/\ mod_inverse a m = Some x, 0 <= x < m & (a * x) mod m = 1].
Proof.
move=> a_pos m_gt1 coprime; rewrite /mod_inverse.
have m0 : m <> 0 by lia.
have := gcd_extended_spec a m.
case: (gcd_extended a m) => [[g x] y] [bez _ /(_ a_pos) gE _].
rewrite gE coprime [1 =? 1]/= [~~ true]/=.
eexists; split; first by [].
- by have := Z.mod_pos_bound (x mod m + m) m; lia.
- have -> : (x mod m + m) mod m = x mod m.
    by rewrite -{2}(Z.mul_1_l m) Z.mod_add // Z.mod_mod.
  rewrite (Z.mul_mod_idemp_r _ _ _ m0).
  have -> : a * x = 1 + (- y) * m by lia.
  by rewrite Z.mod_add // Z.mod_small //; lia.
Qed.

(** ** The siblings *)

(** [_nums_to_text] of [src/backend/hillcipher.py] wraps every integer
    into the alphabet and never raises. *)
Lemma backend_nums_to_text_wraps (nums : seq Z) :
  Backend._nums_to_text nums = Ok [seq n mod 26 + 65 | n <- nums] /\
  all (Py.between 65 90) [seq n mod 26 + 65 | n <- nums].
Proof.
split.
- apply: (@mapM_ok _ _ _ _ predT) (all_predT _) => n _.
  rewrite /Py.chr /Backend.m; have := Z.mod_pos_bound n 26.
  by case: Z.leb_spec; case: Z.ltb_spec => //=; lia.
- rewrite all_map; apply: all_always => n /=.
  by rewrite /Py.between /is_true; have := Z.mod_pos_bound n 26; lia.
Qed.

(** [_mod_inverse] of [src/backend/hill_cypher.py] reduces its argument
    first, and so inverts every determinant the validator accepts. *)
Lemma hill_cypher_mod_inverse_total (a : Z) :
  Z.gcd (a mod 26) 26 = 1 ->
  exists x, [/\ HillCypher._mod_inverse a 26 = Ok x, 0 <= x < 26
               & (a * x) mod 26 = 1].
Proof.
move=> coprime; rewrite /HillCypher._mod_inverse [26 =? 0]/=.
have r_pos : 0 < a mod 26.
  have := Z.mod_pos_bound a 26; case: (Z.eqb_spec (a mod 26) 0) => [r0|]; last lia.
  by move: coprime; rewrite r0.
have [x [inv x_bound x_inv]] :=
  @mod_inverse_positive (a mod 26) 26 r_pos (erefl : 1 < 26) coprime.
move: inv; rewrite /mod_inverse.
case: (gcd_extended (a mod 26) 26) => [[g x'] y]; case: ifP => // _ [xE].
exists x; split; rewrite ?xE //.
by rewrite -Z.mul_mod_idemp_l.
Qed.

Lemma hill_cypher_mod_inverse_total_witness :
  exists x, [/\ HillCypher._mod_inverse (-1) 26 = Ok x, 0 <= x < 26
               & (-1 * x) mod 26 = 1].
Proof. exact: (@hill_cypher_mod_inverse_total (-1) (erefl _)). Defined.

(** ** The integers as a commutative ring *)

Lemma Z_codeK : cancel Z_code Z_decode.
Proof. by move=> z; rewrite /Z_code /Z_decode /=; case: Z.ltb_spec; lia. Qed.

HB.instance Definition _ := Choice.copy Z (can_type Z_codeK).

HB.instance Definition _ :=
  GRing.isZmodule.Build Z Z.add_assoc Z.add_comm Z.add_0_l Z.add_opp_diag_l.

Lemma Z_one_neq0 : (1 : Z) != 0.
Proof. by []. Qed.

HB.instance Definition _ :=
  GRing.Zmodule_isComNzRing.Build Z
    Z.mul_assoc Z.mul_comm Z.mul_1_l Z.mul_add_distr_r Z_one_neq0.

Import GRing.Theory.

(** ** Determinant, adjugate and inverse *)

Section Bridge.

Local Open Scope ring_scope.

Lemma ZaddE (x y : Z) : x + y = Z.add x y. Proof. by []. Qed.
Lemma ZmulE (x y : Z) : x * y = Z.mul x y. Proof. by []. Qed.

Lemma sumE (s : seq Z) : Np.sum s = \sum_(x <- s) x.
Proof. by rewrite /Np.sum -foldrE. Qed.

Lemma signE (k : nat) : Np.sign k = (-1) ^+ k.
Proof.
rewrite /Np.sign; elim: k => [|k IH] //=.
rewrite exprS -IH; case: (odd k) => //=.
Qed.

Lemma nth_del (A : Type) (x0 : A) (k : nat) (s : seq A) (i : nat) :
  nth x0 (Np.del k s) i = nth x0 s (bump k i).
Proof.
rewrite /Np.del /bump nth_cat size_take.
case: (ltnP k (size s)) => [k_lt|k_ge].
- case: (ltnP i k) => [i_lt|i_ge].
  + by rewrite add0n nth_take.
  + by rewrite add1n nth_drop addSn subnKC.
- rewrite (drop_oversize (leqW k_ge)) nth_nil.
  case: (ltnP i (size s)) => [i_lt|i_ge].
  + by rewrite take_oversize // leqNgt (leq_trans i_lt k_ge) add0n.
  + by rewrite !nth_default // (leq_trans i_ge) // leq_addl.
Qed.

Lemma nth_map_nil (A B : Type) (f : seq A -> seq B) (s : seq (seq A)) i :
  f [::] = [::] -> nth [::] [seq f x | x <- s] i = f (nth [::] s i).
Proof.
move=> f0; case: (ltnP i (size s)) => [i_lt|i_ge]; first exact: nth_map.
by rewrite !nth_default ?size_map.
Qed.

Lemma del_nil (A : Type) k : Np.del k ([::] : seq A) = [::].
Proof. by []. Qed.

Lemma mx_of_minor n (M : seq (seq Z)) (i0 j0 : 'I_n.+1) :
  mx_of n (Np.minor M i0 j0) = row' i0 (col' j0 (mx_of n.+1 M)).
Proof.
apply/matrixP => i j; rewrite !mxE /Np.minor.
by rewrite nth_map_nil ?del_nil // !nth_del.
Qed.

Lemma sum_iota (n : nat) (F : nat -> Z) :
  Np.sum [seq F j | j <- iota 0 n] = \sum_(j < n) F j.
Proof.
rewrite sumE big_map.
have -> : iota 0 n = index_iota 0 n by rewrite /index_iota subn0.
by rewrite big_mkord.
Qed.

Lemma det_recS n (M : seq (seq Z)) :
  Np.det_rec n.+1 M =
  Np.sum [seq (Np.sign j * nth 0 (head [::] M) j * Np.det_rec n (Np.minor M 0 j))%Z
         | j <- iota 0 n.+1].
Proof. by []. Qed.

(** The cofactor expansion computes the determinant. *)
Lemma det_recE n (M : seq (seq Z)) : Np.det_rec n M = \det (mx_of n M).
Proof.
elim: n M => [|n IH] M; first by rewrite det_mx00.
rewrite (expand_det_row _ ord0) det_recS sum_iota.
apply: eq_bigr => j _.
rewrite /cofactor -(mx_of_minor M ord0 j) -IH mxE add0n -signE nth0 /=.
by rewrite -!ZmulE mulrA [Np.sign j * _]mulrC.
Qed.

Lemma nth_table n (F : nat -> nat -> Z) (i j : nat) :
  (i < n)%N -> (j < n)%N ->
  nth 0%Z (nth [::] [seq [seq F i j | j <- iota 0 n] | i <- iota 0 n] i) j = F i j.
Proof.
move=> i_lt j_lt.
rewrite (nth_map 0%N) ?size_iota // (nth_map 0%N) ?size_iota //.
by rewrite !nth_iota.
Qed.

Lemma eq_table n (F G : nat -> nat -> Z) :
  (forall i j, (i < n)%N -> (j < n)%N -> F i j = G i j) ->
  [seq [seq F i j | j <- iota 0 n] | i <- iota 0 n]
  = [seq [seq G i j | j <- iota 0 n] | i <- iota 0 n].
Proof.
move=> FG; apply/eq_in_map => i; rewrite mem_iota add0n => /andP[_ i_lt].
by apply/eq_in_map => j; rewrite mem_iota add0n => /andP[_ j_lt]; apply: FG.
Qed.

(** The array of cofactors is the adjugate matrix. *)
Lemma mx_of_adjugate n (A : Np.ndarray) :
  Np.shape0 A = n ->
  mx_of n (Np.rows (Np.adjugate A)) = \adj (mx_of n (Np.rows A)).
Proof.
move=> <-; apply/matrixP => i j; rewrite !mxE /Np.adjugate /=.
rewrite nth_table //.
case: (Np.shape0 A) i j => [[]//|n'] i j /=.
rewrite /cofactor -(mx_of_minor _ j i) -det_recE -signE.
by rewrite addnC.
Qed.

Lemma vdot_cons x y (u v : seq Z) :
  Np.vdot (x :: u) (y :: v) = (x * y + Np.vdot u v)%Z.
Proof. by []. Qed.

Lemma vdotE n (u v : seq Z) :
  size u = n -> size v = n ->
  Np.vdot u v = \sum_(k < n) nth 0%Z u k * nth 0%Z v k.
Proof.
elim: n u v => [|n IH] [|x u] [|y v] //=; first by rewrite big_ord0.
by move=> [su] [sv]; rewrite vdot_cons big_ord_recl /= (IH _ _ su sv).
Qed.

Lemma sum_mod n (F : 'I_n -> Z) (m : Z) :
  m <> 0%Z ->
  ((\sum_(k < n) (F k mod m)%Z) mod m = (\sum_(k < n) F k) mod m)%Z.
Proof.
move=> m0; elim/big_rec2: _ => // k x y _ xy.
by rewrite !ZaddE Z.add_mod // Z.mod_mod // xy -Z.add_mod.
Qed.

Lemma valid_coprime K : is_valid_key_matrix K -> Z.gcd (Np.det K) 26 = 1%Z.
Proof.
rewrite /is_valid_key_matrix; case: eqP => //= _ /Z.eqb_spec.
by rewrite /alphabet_size Z.gcd_mod_l.
Qed.

(** The closed form of lines 140-141 is the array of cofactors. *)
Lemma adjugate_2x2 K :
  Np.wf K -> Np.shape0 K = 2%N -> Np.shape1 K = 2%N ->
  Np.array [:: [:: Np.item K 1 1; (- Np.item K 0 1)%Z];
               [:: (- Np.item K 1 0)%Z; Np.item K 0 0]]
  = Np.adjugate K.
Proof.
case: K => s0 s1 rs; rewrite /Np.wf /= => wfK s0E s1E; move: wfK.
rewrite s0E s1E {s0 s1 s0E s1E}.
case: rs => [|[|a [|b [|? ?]]] [|[|c [|d [|? ?]]] [|? ?]]] //= _.
rewrite /Np.adjugate /Np.array /Np.item /Np.sum; cbn -[Z.mul Z.add Z.opp].
congr (Np.NdArray _ _ [:: [:: _; _]; [:: _; _]]).
- by rewrite -[Np.sign _]/(1%Z); lia.
- by rewrite -[Np.sign _]/((-1)%Z); lia.
- by rewrite -[Np.sign _]/((-1)%Z); lia.
- by rewrite -[Np.sign _]/(1%Z); lia.
Qed.

(** For a valid key of positive determinant [matrix_mod_inverse] returns
    the adjugate scaled by the inverse of the determinant. *)
Lemma matrix_mod_inverse_positive K :
  Np.wf K -> is_valid_key_matrix K -> (0 < Np.det K)%Z ->
  exists det_inv,
    [/\ (0 <= det_inv < 26)%Z, ((Np.det K * det_inv) mod 26 = 1)%Z
      & matrix_mod_inverse K
        = Ok (Some (Np.modulo (Np.scale det_inv (Np.adjugate K)) 26))].
Proof.
move=> wfK validK det_pos.
have [x [inv x_bound x_inv]] :=
  mod_inverse_positive det_pos (erefl : (1 < 26)%Z) (valid_coprime validK).
exists x; split=> //.
rewrite /matrix_mod_inverse /Np.linalg_det (valid_square validK) eqxx /=.
rewrite inv -(valid_square validK).
by case: eqP => // s0E; rewrite adjugate_2x2 // -(valid_square validK).
Qed.

Lemma wf_table n (F : nat -> nat -> Z) :
  Np.wf (Np.NdArray n n [seq [seq F i j | j <- iota 0 n] | i <- iota 0 n]).
Proof.
rewrite /Np.wf /= size_map size_iota eqxx /= all_map.
by apply: all_always => i /=; rewrite size_map size_iota.
Qed.

Lemma wf_map_entries f A : Np.wf A -> Np.wf (Np.map_entries f A).
Proof.
case/andP => sz all_sz; rewrite /Np.wf /= size_map sz /= all_map.
by apply: sub_all all_sz => r /=; rewrite size_map.
Qed.

Lemma item_map_entries f A (i j : nat) :
  Np.wf A -> (i < Np.shape0 A)%N -> (j < Np.shape1 A)%N ->
  nth 0%Z (nth [::] (Np.rows (Np.map_entries f A)) i) j
  = f (nth 0%Z (nth [::] (Np.rows A) i) j).
Proof.
case/andP => /eqP sz /all_nthP all_sz i_lt j_lt /=.
rewrite (nth_map [::]) ?sz // (nth_map 0%Z) //.
by rewrite (eqP (all_sz [::] i _)) ?sz.
Qed.

Lemma wf_row n K (i : nat) :
  Np.wf K -> Np.shape0 K = n -> Np.shape1 K = n -> (i < n)%N ->
  size (nth [::] (Np.rows K) i) = n.
Proof.
case/andP => /eqP sz /all_nthP all_sz s0 s1 i_lt.
by rewrite (eqP (all_sz [::] i _)) ?sz ?s0.
Qed.

Lemma rows_table n (rs : seq (seq Z)) (G : seq Z -> nat -> Z) :
  size rs = n ->
  [seq [seq G r j | j <- iota 0 n] | r <- rs]
  = [seq [seq G (nth [::] rs i) j | j <- iota 0 n] | i <- iota 0 n].
Proof. by move=> sz; rewrite -{1}(mkseq_nth [::] rs) /mkseq sz -map_comp. Qed.

Section Inverse.

Variables (n : nat) (K : Np.ndarray) (det_inv : Z).
Hypothesis wf_K : Np.wf K.
Hypothesis shape0_K : Np.shape0 K = n.
Hypothesis shape1_K : Np.shape1 K = n.
Hypothesis det_invE : ((Np.det K * det_inv) mod 26 = 1)%Z.

Let A : 'M[Z]_n := mx_of n (Np.rows K).
Let inv := Np.modulo (Np.scale det_inv (Np.adjugate K)) 26.

Lemma detE : \det A = Np.det K.
Proof. by rewrite /A -det_recE /Np.det shape0_K. Qed.

Lemma wf_inv : Np.wf inv.
Proof. by do 2![apply: wf_map_entries]; apply: wf_table. Qed.

Lemma inv_entry (i j : 'I_n) :
  nth 0%Z (nth [::] (Np.rows inv) i) j = ((det_inv * (\adj A) i j) mod 26)%Z.
Proof.
rewrite /inv /Np.modulo /Np.scale !item_map_entries /= ?shape0_K //;
  try by [apply: wf_table | apply: wf_map_entries; apply: wf_table].
by rewrite /A -(mx_of_adjugate shape0_K) mxE /= shape0_K.
Qed.

Lemma col_inv (j : 'I_n) (k : 'I_n) :
  nth 0%Z (Np.col inv j) k = ((det_inv * (\adj A) k j) mod 26)%Z.
Proof.
rewrite /Np.col (nth_map [::]) ?inv_entry //.
by case/andP: wf_inv => /eqP -> _; rewrite /= shape0_K.
Qed.

Lemma size_col_inv (j : nat) : size (Np.col inv j) = n.
Proof.
by rewrite /Np.col size_map; case/andP: wf_inv => /eqP -> _; rewrite /= shape0_K.
Qed.

(** The product of the key and the inverse [matrix_mod_inverse]
    computes is the identity modulo 26, entry by entry. *)
Lemma key_inv_entry (i j : 'I_n) :
  (Np.vdot (nth [::] (Np.rows K) i) (Np.col inv j) mod 26)%Z
  = if i == j then 1%Z else 0%Z.
Proof.
rewrite (vdotE (wf_row wf_K shape0_K shape1_K (ltn_ord i)) (size_col_inv j)).
have m0 : 26%Z <> 0%Z by [].
transitivity ((det_inv * (A *m \adj A) i j) mod 26)%Z.
  rewrite mxE -ZmulE mulr_sumr -[RHS]sum_mod // -[LHS]sum_mod //.
  congr (_ mod _)%Z; apply: eq_bigr => k _.
  rewrite col_inv [A i k]mxE -!ZmulE Z.mul_mod_idemp_r //.
  by congr (_ mod _)%Z; rewrite -!ZmulE mulrCA.
rewrite mul_mx_adj detE mxE; case: eqP => _ /=.
- by rewrite mulr1n -det_invE; congr (_ mod _)%Z; exact: Z.mul_comm.
- by rewrite mulr0n Z.mul_0_r.
Qed.

Lemma size_rows_K : size (Np.rows K) = n.
Proof. by case/andP: wf_K => /eqP ->. Qed.

Lemma nth_apply_key m (v : seq Z) (i : nat) :
  (i < size (Np.rows m))%N ->
  nth 0%Z (apply_key m v) i = (Np.vdot (nth [::] (Np.rows m) i) v mod 26)%Z.
Proof. by move=> i_lt; rewrite /apply_key (nth_map [::]). Qed.

(** Decrypting an encrypted block gives the block back. *)
Lemma apply_key_inverse (b : seq Z) :
  size b = n -> all (Py.between 0 25) b ->
  apply_key inv (apply_key K b) = b.
Proof.
move=> size_b residues.
have m0 : 26%Z <> 0%Z by [].
have wf_i := wf_inv.
have size_inv : size (Np.rows inv) = n.
  by case/andP: wf_i => /eqP ->; rewrite /= shape0_K.
have size_e : size (apply_key K b) = n by rewrite size_map size_rows_K.
apply: (@eq_from_nth _ 0%Z); first by rewrite size_map size_inv size_b.
rewrite size_map size_inv => i i_lt.
pose bv : 'cV[Z]_n := \col_l nth 0%Z b l.
pose i' := Ordinal i_lt.
rewrite nth_apply_key ?size_inv //.
have size_row : size (nth [::] (Np.rows inv) i) = n.
  by apply: (wf_row wf_i) => //=; rewrite shape0_K.
rewrite (vdotE size_row size_e).
transitivity ((det_inv * (\adj A *m (A *m bv)) i' ord0) mod 26)%Z.
  rewrite mxE -ZmulE mulr_sumr -[RHS]sum_mod // -[LHS]sum_mod //.
  congr (_ mod _)%Z; apply: eq_bigr => k _.
  rewrite (inv_entry i' k) nth_apply_key ?size_rows_K //.
  rewrite (vdotE (wf_row wf_K shape0_K shape1_K (ltn_ord k)) size_b).
  rewrite -!ZmulE -Z.mul_mod // [(A *m bv) k ord0]mxE mulrA.
  congr ((_ * _) mod _)%Z.
  by apply: eq_bigr => l _; rewrite !mxE.
rewrite mulmxA mul_adj_mx mul_scalar_mx !mxE detE.
rewrite -!ZmulE mulrA [det_inv * _]mulrC !ZmulE.
rewrite -Z.mul_mod_idemp_l // det_invE Z.mul_1_l Z.mod_small //.
have /(all_nthP 0%Z) /(_ i) := residues.
by rewrite size_b /Py.between /is_true [nat_of_ord i']/= => /(_ i_lt); lia.
Qed.

End Inverse.

(** For every valid key of [small_key], of side at most 4 with entries
    between -25 and 25, and of positive determinant, [matrix_mod_inverse]
    returns a matrix, and the product of the key with it is the identity
    modulo 26. *)
Theorem matrix_mod_inverse_correct K :
  small_key K -> is_valid_key_matrix K -> (0 < Np.det K)%Z ->
  exists inv product,
    [/\ matrix_mod_inverse K = Ok (Some inv), Np.dot K inv = Ok product
      & Np.modulo product 26 = Np.eye (Np.shape0 K)].
Proof.
move=> /small_key_wf wfK validK det_pos.
have [det_inv [_ det_invE ->]] := matrix_mod_inverse_positive wfK validK det_pos.
set inv := Np.modulo _ _.
have s1 := esym (valid_square validK).
have sz : size (Np.rows K) = Np.shape0 K by case/andP: wfK => /eqP.
do 2![eexists]; split; first by [].
- by rewrite /Np.dot /= s1 eqxx.
- rewrite /Np.modulo /Np.map_entries /Np.eye [Np.shape0 _]/= [Np.shape1 _]/= [Np.rows _]/=.
  congr Np.NdArray.
  transitivity [seq [seq (Np.vdot r (Np.col inv j) mod 26)%Z
                         | j <- iota 0 (Np.shape0 K)] | r <- Np.rows K].
    by rewrite -map_comp; apply: eq_map => r /=; rewrite -map_comp.
  rewrite (rows_table (fun r j => (Np.vdot r (Np.col inv j) mod 26)%Z) sz).
  apply: eq_table => i j i_lt j_lt.
  exact: (key_inv_entry wfK (erefl _) s1 det_invE (Ordinal i_lt) (Ordinal j_lt)).
Qed.

Lemma matrix_mod_inverse_correct_witness :
  exists inv product,
    [/\ matrix_mod_inverse key_matrix_3x3 = Ok (Some inv),
        Np.dot key_matrix_3x3 inv = Ok product
      & Np.modulo product 26 = Np.eye 3].
Proof.
exact: (@matrix_mod_inverse_correct key_matrix_3x3 isT isT
          (erefl : 0 < Np.det key_matrix_3x3)).
Defined.

End Bridge.

(** ** The round trip *)

(** The round trip of a text of letters. *)
Lemma roundtrip_letters_eq ucd (plaintext : Py.str) (K : Np.ndarray) :
  Np.wf K -> is_valid_key_matrix K -> 0 < Np.det K -> (0 < Np.shape0 K)%N ->
  all ascii_letter plaintext ->
  roundtrip ucd plaintext K =
  Ok ([seq ascii_upper c | c <- plaintext]
      ++ nseq (pad_count (size plaintext) (Np.shape0 K)) 88).
Proof.
move=> wfK validK det_pos n_gt0 letters.
have [det_inv [_ det_invE inv_K]] := matrix_mod_inverse_positive wfK validK det_pos.
have s1 := esym (valid_square validK).
set n := Np.shape0 K in n_gt0 s1 *.
rewrite /roundtrip (encrypt_eq ucd plaintext validK n_gt0) [LHS]/= -/n.
rewrite (decrypt_eq ucd _ validK n_gt0 inv_K (erefl _)) [LHS]/= -/n.
rewrite pad_text_eq //; set k := pad_count _ _.
set padded := plaintext ++ _.
have letters_padded : all ascii_letter padded.
  by rewrite all_cat letters all_nseq orbT.
set numbers := text_to_numbers ucd padded.
have numbersE : numbers = [seq ascii_upper c - 65 | c <- padded].
  exact: text_to_numbers_letters.
have residues : all (Py.between 0 25) numbers.
  exact: text_to_numbers_residues.
have dvd : (n %| size numbers)%N.
  by rewrite numbersE size_map size_cat size_nseq pad_count_dvd.
have [flatB sizesB] := flatten_full_blocks n_gt0 dvd.
set blocks := full_blocks numbers n in flatB sizesB *.
have residuesB : all (all (Py.between 0 25)) blocks.
  by rewrite -all_flatten flatB.
set enc := [seq apply_key K b | b <- blocks].
have sizes_enc : all (fun b => size b == n)%N enc.
  by rewrite all_map; apply: all_always => b /=; rewrite apply_key_size.
rewrite text_to_numbers_of_residues ?all_residues //.
rewrite (full_blocks_flatten n_gt0 sizes_enc) -map_comp.
have dec_id :
  [seq (apply_key (Np.modulo (Np.scale det_inv (Np.adjugate K)) 26)
        \o apply_key K) b | b <- blocks] = blocks.
  apply: (@map_id_all _ (fun b => (size b == n)%N && all (Py.between 0 25) b)).
    by move=> b /andP[/eqP size_b res_b] /=; apply: apply_key_inverse.
  exact: all_and.
rewrite dec_id.
rewrite flatB numbersE -map_comp map_cat map_nseq.
by congr (Ok (_ ++ _)); apply: eq_map => c /=; lia.
Qed.

(** For a valid key of [small_key], of side between 1 and 4 with entries
    between -25 and 25, and of positive determinant, and for a text of
    ASCII letters, decrypting the encrypted text gives the upper-cased
    text back, followed by the letters X the padding added. *)
Theorem roundtrip_letters ucd (plaintext : Py.str) (K : Np.ndarray) :
  small_key K -> is_valid_key_matrix K -> 0 < Np.det K -> (0 < Np.shape0 K)%N ->
  all ascii_letter plaintext ->
  roundtrip ucd plaintext K =
  Ok ([seq ascii_upper c | c <- plaintext]
      ++ nseq (pad_count (size plaintext) (Np.shape0 K)) 88).
Proof. by move=> /small_key_wf; exact: roundtrip_letters_eq. Qed.

Lemma roundtrip_letters_witness :
  roundtrip latin1_only (Py.lit "Hello") key_matrix_2x2 = Ok (Py.lit "HELLOX").
Proof.
exact: (@roundtrip_letters latin1_only (Py.lit "Hello") key_matrix_2x2
          isT isT (erefl : 0 < Np.det key_matrix_2x2) isT isT).
Defined.

(** For a text of ASCII letters [encrypt] works on the numbers of the
    text followed by as many 23 as reach the next multiple of the key's
    side, and its blocks partition these numbers without remainder. *)
Theorem encrypt_letters_numbers ucd (plaintext : Py.str) (K : Np.ndarray) :
  is_valid_key_matrix K -> (0 < Np.shape0 K)%N -> all ascii_letter plaintext ->
  exists ciphertext steps,
    [/\ encrypt ucd plaintext K = Ok (ciphertext, steps),
        e_text_numbers steps
          = text_to_numbers ucd plaintext
            ++ nseq (pad_count (size plaintext) (Np.shape0 K)) 23,
        flatten (e_blocks steps) = e_text_numbers steps
      & all (fun b => size b == Np.shape0 K)%N (e_blocks steps)].
Proof.
move=> validK n_gt0 letters.
rewrite (encrypt_eq ucd plaintext validK n_gt0).
do 2![eexists]; split; first by []; rewrite /=.
- rewrite pad_text_eq // text_to_numbers_cat; congr (_ ++ _).
  by rewrite text_to_numbers_letters ?all_nseq ?orbT // map_nseq.
- apply: (proj1 (flatten_full_blocks n_gt0 _)); rewrite pad_text_eq //.
  set padded := _ ++ _.
  have letters_padded : all ascii_letter padded.
    by rewrite all_cat letters all_nseq orbT.
  rewrite (text_to_numbers_letters _ letters_padded) size_map.
  by rewrite size_cat size_nseq pad_count_dvd.
- exact: full_blocks_size.
Qed.

Lemma encrypt_letters_numbers_witness :
  exists ciphertext steps,
    [/\ encrypt latin1_only (Py.lit "HELLO") key_matrix_2x2 = Ok (ciphertext, steps),
        e_text_numbers steps = [:: 7; 4; 11; 11; 14; 23],
        flatten (e_blocks steps) = e_text_numbers steps
      & all (fun b => size b == 2)%N (e_blocks steps)].
Proof.
exact: (@encrypt_letters_numbers latin1_only (Py.lit "HELLO") key_matrix_2x2
          isT isT isT).
Defined.

(** [mod_inverse] has no inverse for a negative determinant, so
    [decrypt] raises for every valid key whose determinant is negative. *)
Theorem decrypt_negative_determinant ucd (ciphertext : Py.str) (K : Np.ndarray) :
  is_valid_key_matrix K -> Np.det K < 0 ->
  decrypt ucd ciphertext K
  = Raise (ValueError "Cannot find inverse of key matrix").
Proof.
move=> validK det_neg.
rewrite /decrypt validK /matrix_mod_inverse /Np.linalg_det.
by rewrite (valid_square validK) eqxx /= mod_inverse_negative.
Qed.

Lemma decrypt_negative_determinant_witness :
  decrypt latin1_only (Py.lit "DL") negative_key
  = Raise (ValueError "Cannot find inverse of key matrix").
Proof.
exact: (@decrypt_negative_determinant latin1_only (Py.lit "DL") negative_key
          isT (erefl : Np.det negative_key < 0)).
Defined.

(** ** ASCII text *)

Section Ascii.

Variable ucd : Py.unicode_tail.

Lemma text_to_numbers_ascii_char c :
  Py.between 0 127 c ->
  text_to_numbers ucd [:: c]
  = [seq ascii_upper x - 65 | x <- [:: c] & ascii_letter x].
Proof.
move=> ascii; rewrite [RHS]/=; case letter: (ascii_letter c).
  exact: text_to_numbers_letter.
have -> : text_to_numbers ucd [:: c]
  = [seq Py.ord char - ord_A
    | char <- [seq char <- Py.remove_char 32 (Py.upper_char ucd c)
              | Py.isalpha ucd char]].
  by rewrite /text_to_numbers /Py.upper /= cats0.
move: ascii letter; rewrite /ascii_letter /Py.between /is_true => ascii letter.
have -> : Py.upper_char ucd c = [:: c].
  rewrite /Py.upper_char /Py.latin1_upper /Py.between.
  have -> : (c <? 256) = true by lia.
  have -> : (97 <=? c) && (c <=? 122) = false by lia.
  have -> : (c =? 181) = false by lia.
  have -> : (c =? 223) = false by lia.
  have -> : (224 <=? c) && (c <=? 246) || (248 <=? c) && (c <=? 254) = false by lia.
  by have -> : (c =? 255) = false by lia.
have alpha : Py.isalpha ucd c = false.
  rewrite /Py.isalpha /Py.latin1_isalpha /Py.between.
  have -> : (c <? 256) = true by lia.
  have -> : (65 <=? c) && (c <=? 90) = false by lia.
  have -> : (97 <=? c) && (c <=? 122) = false by lia.
  have -> : (c =? 170) = false by lia.
  have -> : (c =? 181) = false by lia.
  have -> : (c =? 186) = false by lia.
  have -> : (192 <=? c) && (c <=? 214) = false by lia.
  have -> : (216 <=? c) && (c <=? 246) = false by lia.
  by have -> : (248 <=? c) && (c <=? 255) = false by lia.
by rewrite /Py.remove_char /=; case: (c =? 32) => //=; rewrite alpha.
Qed.

(** On ASCII text [text_to_numbers] keeps the letters A-Z and a-z, in
    order, maps them by A=0 ... Z=25 whatever their case, and drops every
    other character; its numbers lie in [0,25]. *)
Theorem text_to_numbers_ascii (text : Py.str) :
  all (Py.between 0 127) text ->
  text_to_numbers ucd text
    = [seq ascii_upper c - 65 | c <- text & ascii_letter c]
  /\ all (Py.between 0 25) (text_to_numbers ucd text).
Proof.
move=> ascii.
have eq : text_to_numbers ucd text
          = [seq ascii_upper c - 65 | c <- text & ascii_letter c].
  elim: text ascii => [|c text IH] //= /andP[ascii_c /IH eq].
  rewrite -cat1s text_to_numbers_cat eq text_to_numbers_ascii_char //=.
  by case: (ascii_letter c).
split=> //; rewrite eq all_map all_filter; apply: all_always => c /=.
apply/implyP => letter; have [upper _] := isalpha_upper_letter ucd letter.
by move: upper; rewrite /Py.between /is_true; lia.
Qed.

End Ascii.

Lemma text_to_numbers_ascii_witness :
  text_to_numbers latin1_only (Py.lit "Hi, you!") = [:: 7; 8; 24; 14; 20]
  /\ all (Py.between 0 25) (text_to_numbers latin1_only (Py.lit "Hi, you!")).
Proof. exact: (@text_to_numbers_ascii latin1_only (Py.lit "Hi, you!") isT). Defined.

(** * More of the engine *)

(** ** [gcd_extended], [mod_inverse] and the validator *)

(** [gcd_extended] returns the greatest common divisor with the sign of
    its first argument, and its second argument when the first is 0: it
    is the greatest common divisor only for a positive first argument. *)
Theorem gcd_extended_gcd (a b : Z) :
  (gcd_extended a b).1.1 = if a =? 0 then b else Z.sgn a * Z.gcd a b.
Proof.
have := gcd_extended_spec a b.
case: (gcd_extended a b) => [[g x] y] [_ g0 gpos gneg] /=.
case: Z.eqb_spec => [/g0 //|a0].
have [a_pos|a_neg] : 0 < a \/ a < 0 by lia.
- by rewrite gpos // Z.sgn_pos // Z.mul_1_l.
- by rewrite gneg // Z.sgn_neg //; lia.
Qed.

(** For a modulus above 1, [mod_inverse] returns an inverse exactly for
    the positive numbers coprime to the modulus, and the inverse lies in
    [0, m); for every other number, zero and the negative ones included,
    it returns [None]. *)
Theorem mod_inverse_spec (a m : Z) :
  1 < m ->
  match mod_inverse a m with
  | Some x => [/\ 0 < a, Z.gcd a m = 1, 0 <= x < m & (a * x) mod m = 1]
  | None => a <= 0 \/ Z.gcd a m <> 1
  end.
Proof.
move=> m_gt1.
have [a_pos|a_le0] : 0 < a \/ a <= 0 by lia.
- case: (Z.eq_dec (Z.gcd a m) 1) => [coprime|ncoprime].
  + by have [x [-> x_bound x_inv]] := mod_inverse_positive a_pos m_gt1 coprime.
  + rewrite /mod_inverse; have := gcd_extended_spec a m.
    case: (gcd_extended a m) => [[g x] y] [_ _ /(_ a_pos) -> _].
    by case: Z.eqb_spec => //= _; right.
- have [a_neg|a0] : a < 0 \/ a = 0 by lia.
  + by rewrite mod_inverse_negative //; left.
  + rewrite /mod_inverse; have := gcd_extended_spec a m.
    case: (gcd_extended a m) => [[g x] y] [_ /(_ a0) -> _ _].
    by case: Z.eqb_spec => [|_ /=]; [lia | left].
Qed.

Lemma mod_inverse_spec_witness :
  match mod_inverse 11 26 with
  | Some x => [/\ 0 < 11, Z.gcd 11 26 = 1, 0 <= x < 26 & (11 * x) mod 26 = 1]
  | None => 11 <= 0 \/ Z.gcd 11 26 <> 1
  end.
Proof. exact: (@mod_inverse_spec 11 26 (erefl _)). Defined.

Lemma coprime26 (r : Z) :
  0 <= r < 26 -> (Z.gcd r 26 =? 1) = Z.odd r && ~~ (r mod 13 =? 0).
Proof.
move=> r_bound.
have -> : r = Z.of_nat (Z.to_nat r) by lia.
have : (Z.to_nat r < 26)%N by apply/ltP; lia.
by move: (Z.to_nat r); do 26![case=> [_|] //].
Qed.

Lemma valid_odd (K : Np.ndarray) :
  is_valid_key_matrix K =
  [&& (Np.shape0 K == Np.shape1 K)%N, Z.odd (Np.det K)
    & ~~ (Np.det K mod 13 =? 0)].
Proof.
rewrite /is_valid_key_matrix; case: eqP => //= _.
rewrite /alphabet_size (coprime26 (Z.mod_pos_bound _ 26 (erefl _))).
have -> : (Np.det K mod 26) mod 13 = Np.det K mod 13.
  by Z.to_euclidean_division_equations; lia.
congr (_ && _); rewrite !Zodd_mod.
have -> // : (Np.det K mod 26) mod 2 = Np.det K mod 2.
by Z.to_euclidean_division_equations; lia.
Qed.

(** *** The validator on the float64 determinant *)

(** Rounding recovers an integer from a quotient less than one half
    away from it. *)
Lemma round_half_even_near (m den d : Z) :
  2 * Z.abs (m - d * den) < den -> F64.round_half_even m den = d.
Proof.
move=> close; rewrite /F64.round_half_even.
have den_pos : 0 < den by lia.
have := Z.div_mod m den ltac:(lia).
have := Z.mod_pos_bound m den den_pos.
move: (m / den) (m mod den) => q r r_bound mE.
have [qE|qE] : q = d \/ q = d - 1 by nia.
  by have -> : 2 * r <? den = true by nia.
have -> : 2 * r <? den = false by nia.
have -> : den <? 2 * r = true by nia.
by lia.
Qed.

Lemma int_round_near (x : F64.t) (d : Z) : near x d -> F64.int_round x = Ok d.
Proof.
case: x => [m e|s|] //=.
case: (0 <=? e) => [/Z.eqb_eq -> //|close].
congr Ok; apply: round_half_even_near.
by move: (2 ^ (- e)) close => den /Z.ltb_lt.
Qed.

(** A float64 of magnitude [2 ^ 53] or more is an even integer. *)
Lemma int_round_large (x : F64.t) :
  F64.wf x -> large x -> exists2 v, F64.int_round x = Ok v & Z.even v.
Proof.
case: x => [m e|s|] //= /and3P[m_lt _ _] /andP[e_ge0 big].
rewrite e_ge0; exists (m * 2 ^ e) => //.
have e_pos : 0 < e.
  have [//|e_le0] := Z.lt_ge_cases 0 e.
  have e0 : e = 0 by move: e_ge0; rewrite /is_true; lia.
  by move: big m_lt; rewrite e0 Z.pow_0_r /is_true; lia.
have -> : 2 ^ e = 2 * 2 ^ (e - 1).
  by rewrite -Z.pow_succ_r; try lia; congr (_ ^ _); lia.
by rewrite Z.mul_assoc Z.even_mul Z.even_mul /= orbT.
Qed.

Lemma even_not_coprime26 (v : Z) :
  Z.even v -> (Z.gcd (v mod 26) 26 =? 1) = false.
Proof.
move=> /Z.even_spec[k ->].
apply/Z.eqb_neq => coprime.
have two_dvd : (2 | Z.gcd ((2 * k) mod 26) 26).
  apply: Z.gcd_greatest; last by exists 13.
  by exists (k mod 13); Z.to_euclidean_division_equations; lia.
by move: two_dvd; rewrite coprime => -[c]; lia.
Qed.

(** Where the float64 determinant is less than one half away from the
    determinant, the validator is the validator of the exact
    determinant. *)
Lemma is_valid_key_matrix_f64_near (la : F64.lapack) (M : Np.ndarray) :
  near (F64.det la M) (Np.det M) ->
  is_valid_key_matrix_f64 la M = Ok (is_valid_key_matrix M).
Proof.
move=> close; rewrite /is_valid_key_matrix_f64 /is_valid_key_matrix.
by case: ifP => // _; rewrite (int_round_near close).
Qed.

Lemma is_valid_key_matrix_f64_large (la : F64.lapack) (M : Np.ndarray) :
  F64.wf (F64.det la M) -> large (F64.det la M) ->
  is_valid_key_matrix_f64 la M = Ok false.
Proof.
move=> wf_x large_x; rewrite /is_valid_key_matrix_f64.
case: ifP => // _.
have [v -> even_v] /= := int_round_large wf_x large_x.
by rewrite /alphabet_size even_not_coprime26.
Qed.

(** Whatever routine computes the float64 determinant, where its result
    is less than one half away from the determinant the validator
    accepts exactly the square arrays whose determinant is odd and not a
    multiple of 13. *)
Theorem is_valid_key_matrix_odd (la : F64.lapack) (K : Np.ndarray) :
  near (F64.det la K) (Np.det K) ->
  is_valid_key_matrix_f64 la K =
  Ok [&& (Np.shape0 K == Np.shape1 K)%N, Z.odd (Np.det K)
       & ~~ (Np.det K mod 13 =? 0)].
Proof. by move=> close; rewrite (is_valid_key_matrix_f64_near close) valid_odd. Qed.

Lemma is_valid_key_matrix_odd_witness :
  is_valid_key_matrix_f64 F64.exact_on_copy key_matrix_3x3 =
  Ok [&& (Np.shape0 key_matrix_3x3 == Np.shape1 key_matrix_3x3)%N,
         Z.odd (Np.det key_matrix_3x3)
       & ~~ (Np.det key_matrix_3x3 mod 13 =? 0)].
Proof. exact: (@is_valid_key_matrix_odd F64.exact_on_copy key_matrix_3x3 isT). Defined.

(** ** Encoding and decoding *)

Lemma numbers_to_text_eq (numbers : seq Z) :
  numbers_to_text numbers =
  if all (Py.between (-65) 1114046) numbers
  then Ok [seq num + 65 | num <- numbers]
  else Raise (ValueError "chr() arg not in range(0x110000)").
Proof.
rewrite /numbers_to_text; elim: numbers => [|num numbers IH] //=.
rewrite IH /Py.chr /ord_A /Py.ord /Py.between.
have -> : (0 <=? num + 65) && (num + 65 <? 1114112)
          = (-65 <=? num) && (num <=? 1114046) by lia.
by case: (_ && _) => //=; case: (all _ _).
Qed.

(** [numbers_to_text] returns exactly when every number plus 65 is a
    code point, that is lies in [0, 0x110000), and then the text has the
    character [chr(num + 65)] for each number; it raises otherwise. *)
Theorem numbers_to_text_spec (numbers : seq Z) :
  if all (Py.between (-65) 1114046) numbers
  then numbers_to_text numbers = Ok [seq num + 65 | num <- numbers]
  else forall text, numbers_to_text numbers <> Ok text.
Proof. by rewrite numbers_to_text_eq; case: (all _ _). Qed.

Section AsciiText.

Variable ucd : Py.unicode_tail.

Lemma text_to_numbers_ascii_eq (text : Py.str) :
  all (Py.between 0 127) text ->
  text_to_numbers ucd text = [seq ascii_upper c - 65 | c <- text & ascii_letter c].
Proof.
elim: text => [|c text IH] //= /andP[ascii_c /IH eq].
rewrite -cat1s text_to_numbers_cat eq text_to_numbers_ascii_char //=.
by case: (ascii_letter c).
Qed.

Lemma upper_ascii (text : Py.str) :
  all (Py.between 0 127) text -> Py.upper ucd text = [seq ascii_upper c | c <- text].
Proof.
rewrite /Py.upper; elim: text => [|c text IH] //= /andP[ascii_c /IH ->].
rewrite -cat1s; congr (_ ++ _).
move: ascii_c; rewrite /Py.upper_char /Py.latin1_upper /ascii_upper /Py.between.
rewrite /is_true => ascii_c.
have -> : (c <? 256) = true by lia.
case: ((97 <=? c) && (c <=? 122)) => //.
have -> : (c =? 181) = false by lia.
have -> : (c =? 223) = false by lia.
have -> : (224 <=? c) && (c <=? 246) || (248 <=? c) && (c <=? 254) = false by lia.
by have -> : (c =? 255) = false by lia.
Qed.

End AsciiText.

(** Decoding and then encoding gives every list of residues back, and
    encoding and then decoding an ASCII text gives its letters back, in
    upper case. *)
Theorem text_numbers_roundtrip ucd (numbers : seq Z) (text : Py.str) :
  all (Py.between 0 25) numbers -> all (Py.between 0 127) text ->
  (exists2 decoded, numbers_to_text numbers = Ok decoded
                  & text_to_numbers ucd decoded = numbers)
  /\ numbers_to_text (text_to_numbers ucd text)
     = Ok [seq ascii_upper c | c <- text & ascii_letter c].
Proof.
move=> residues ascii; split.
  exists [seq n + 65 | n <- numbers]; first exact: numbers_to_text_residues.
  exact: text_to_numbers_of_residues.
rewrite (text_to_numbers_ascii_eq ucd ascii).
have residues_text : all (Py.between 0 25)
                         [seq ascii_upper c - 65 | c <- text & ascii_letter c].
  rewrite all_map all_filter; apply: all_always => c /=.
  apply/implyP => letter; have [upper _] := isalpha_upper_letter ucd letter.
  by move: upper; rewrite /Py.between /is_true; lia.
rewrite (numbers_to_text_residues residues_text) -map_comp.
by congr Ok; apply: eq_map => c /=; lia.
Qed.

Lemma text_numbers_roundtrip_witness :
  (exists2 decoded, numbers_to_text [:: 7; 4; 11; 11; 14] = Ok decoded
                  & text_to_numbers latin1_only decoded = [:: 7; 4; 11; 11; 14])
  /\ numbers_to_text (text_to_numbers latin1_only (Py.lit "Hi, you!"))
     = Ok (Py.lit "HIYOU").
Proof.
exact: (@text_numbers_roundtrip latin1_only [:: 7; 4; 11; 11; 14]
          (Py.lit "Hi, you!") isT isT).
Defined.

(** ** The blocks, in full *)

(** The first block of a list that begins with a full block. *)
Lemma full_blocks_block (bs : nat) (b rest : seq Z) :
  (0 < bs)%N -> size b = bs ->
  full_blocks (b ++ rest) bs = b :: full_blocks rest bs.
Proof.
move=> bs_gt0 size_b; rewrite /full_blocks size_cat size_b.
rewrite divnDl ?dvdnn // divnn bs_gt0 modnDl -addnA add1n.
have first_block : Py.slice (b ++ rest) 0 bs = b.
  by rewrite /Py.slice drop0 -size_b take_size_cat.
rewrite -[iota 0 _.+1]/(0%N :: iota 1 _) (iotaDl 1 0) /= mul0n add0n.
rewrite first_block size_b eqxx /=.
congr (_ :: _); rewrite -!map_comp; congr map; congr filter.
by apply: eq_map => k /=; rewrite add1n mulSn -addnA slice_cat_skip.
Qed.

Lemma full_blocks_short (bs : nat) (r : seq Z) :
  (size r < bs)%N -> full_blocks r bs = [::].
Proof.
move=> short; rewrite /full_blocks divn_small // modn_small // add0n.
case: r short => [|x r] //= short.
by rewrite mul0n add0n /Py.slice drop0 take_oversize 1?ltnW //= ltn_eqF.
Qed.

Lemma full_blocks_cat (bs : nat) (B : seq (seq Z)) (rest : seq Z) :
  (0 < bs)%N -> all (fun b => size b == bs)%N B ->
  full_blocks (flatten B ++ rest) bs = B ++ full_blocks rest bs.
Proof.
move=> bs_gt0; elim: B => [|b B IH] //= /andP[/eqP size_b sizes].
by rewrite -catA full_blocks_block // IH.
Qed.

(** The blocks of a list are its [len // bs] first full blocks. *)
Lemma full_blocks_take (bs : nat) (xs : seq Z) :
  (0 < bs)%N ->
  flatten (full_blocks xs bs) = take (size xs %/ bs * bs) xs /\
  size (full_blocks xs bs) = (size xs %/ bs)%N.
Proof.
move=> bs_gt0; set q := (size xs %/ bs)%N.
have le_q : (q * bs <= size xs)%N by rewrite /q leq_trunc_div.
have size_a : size (take (q * bs) xs) = (q * bs)%N by rewrite size_takel.
have dvd_a : (bs %| size (take (q * bs) xs))%N by rewrite size_a dvdn_mull.
have [flat_a sizes_a] := flatten_full_blocks bs_gt0 dvd_a.
have short : (size (drop (q * bs) xs) < bs)%N.
  by rewrite size_drop {1}(divn_eq (size xs) bs) addKn ltn_pmod.
have blocksE : full_blocks xs bs = full_blocks (take (q * bs) xs) bs.
  rewrite -{1}(cat_take_drop (q * bs) xs) -{1}flat_a.
  by rewrite (full_blocks_cat _ bs_gt0 sizes_a) (full_blocks_short short) cats0.
split; first by rewrite blocksE flat_a.
have := size_flatten_blocks sizes_a; rewrite flat_a size_a -blocksE.
by move/eqP; rewrite eqn_pmul2r // => /eqP.
Qed.

(** [create_text_blocks] raises for a block size of 0.  Otherwise it
    returns [len(numbers) // block_size] column vectors of [block_size]
    entries, which hold the numbers in order up to the last full block:
    the [len(numbers) % block_size] numbers that remain are in no
    block. *)
Theorem create_text_blocks_spec (numbers : seq Z) (block_size : nat) :
  if (block_size == 0)%N
  then create_text_blocks numbers block_size
       = Raise (ValueError "range() arg 3 must not be zero")
  else exists blocks,
    [/\ create_text_blocks numbers block_size = Ok blocks,
        size blocks = (size numbers %/ block_size)%N,
        all (fun b => [&& Np.wf b, Np.shape0 b == block_size
                        & Np.shape1 b == 1])%N blocks
      & flatten [seq Np.flatten b | b <- blocks]
        = take (size numbers %/ block_size * block_size) numbers].
Proof.
case: posnP => [-> //|bs_gt0].
have [flatE sizeE] := full_blocks_take numbers bs_gt0.
exists [seq Np.column b | b <- full_blocks numbers block_size].
split; first exact: create_text_blocks_ok.
- by rewrite size_map.
- rewrite all_map.
  apply: sub_all (full_blocks_size numbers block_size) => b /= /eqP size_b.
  rewrite /Np.wf /= size_map size_b !eqxx /= all_map andbT.
  exact: all_always.
- by rewrite flatten_columns flatE.
Qed.

(** ** The outcome of [encrypt] and [decrypt] *)

(** For a key of [small_key], of side at most 4 with entries between
    -25 and 25: [encrypt] raises [ValueError] if the validator rejects the
    key and [ZeroDivisionError] for the empty key, which the validator
    accepts.  For every other such key it returns: the numbers are those
    of the padded text, the blocks are the numbers up to the last full
    block, every block is multiplied by the key modulo 26, and the
    ciphertext has one letter for each number in a block. *)
Theorem encrypt_outcome ucd (plaintext : Py.str) (K : Np.ndarray) :
  small_key K ->
  if ~~ is_valid_key_matrix K
  then encrypt ucd plaintext K
       = Raise (ValueError "Invalid key matrix: not invertible mod 26")
  else if (Np.shape0 K == 0)%N
  then encrypt ucd plaintext K = Raise ZeroDivisionError
  else exists ciphertext steps,
    [/\ encrypt ucd plaintext K = Ok (ciphertext, steps),
        e_text_numbers steps = text_to_numbers ucd (e_padded_text steps),
        flatten (e_blocks steps)
        = take (size (e_text_numbers steps) %/ Np.shape0 K * Np.shape0 K)
               (e_text_numbers steps),
        e_encrypted_blocks steps = [seq apply_key K b | b <- e_blocks steps]
      & ciphertext = [seq num + 65 | num <- flatten (e_encrypted_blocks steps)]
        /\ size ciphertext
           = (size (e_text_numbers steps) %/ Np.shape0 K * Np.shape0 K)%N].
Proof.
move=> /small_key_wf wfK; case validK: (is_valid_key_matrix K) => /=; last first.
  by rewrite /encrypt validK.
case: posnP => [n0|n_gt0].
  by rewrite /encrypt validK /pad_text n0.
rewrite (encrypt_eq ucd plaintext validK n_gt0).
set numbers := text_to_numbers _ _.
have [flatE sizeE] := full_blocks_take numbers n_gt0.
do 2![eexists]; split; first by [];
  cbn [e_text_numbers e_padded_text e_blocks e_encrypted_blocks] => //.
split=> //.
have sizes : all (fun b => size b == Np.shape0 K)%N
                 [seq apply_key K b | b <- full_blocks numbers (Np.shape0 K)].
  by rewrite all_map; apply: all_always => v /=; rewrite apply_key_size.
by rewrite size_map (size_flatten_blocks sizes) size_map sizeE.
Qed.

Lemma encrypt_outcome_witness :
  exists ciphertext steps,
    [/\ encrypt latin1_only (Py.lit "Hello, World! 123") key_matrix_2x2
        = Ok (ciphertext, steps),
        e_text_numbers steps = text_to_numbers latin1_only (e_padded_text steps),
        flatten (e_blocks steps)
        = take (size (e_text_numbers steps) %/ 2 * 2) (e_text_numbers steps),
        e_encrypted_blocks steps
        = [seq apply_key key_matrix_2x2 b | b <- e_blocks steps]
      & ciphertext = [seq num + 65 | num <- flatten (e_encrypted_blocks steps)]
        /\ size ciphertext = (size (e_text_numbers steps) %/ 2 * 2)%N].
Proof.
exact: (@encrypt_outcome latin1_only (Py.lit "Hello, World! 123")
          key_matrix_2x2 isT).
Defined.

(** For a well-formed valid key of side [n], at least 1, and of positive
    determinant, [decrypt] returns for every ciphertext: the plaintext is
    made of the letters A-Z, it has [n] letters for each full block of
    the ciphertext's numbers, every block is multiplied by the inverse key
    modulo 26, and the entries of the inverse key lie in [0,25]. *)
Theorem decrypt_returns ucd (ciphertext : Py.str) (K : Np.ndarray) :
  Np.wf K -> is_valid_key_matrix K -> (0 < Np.shape0 K)%N -> 0 < Np.det K ->
  exists plaintext steps,
    [/\ decrypt ucd ciphertext K = Ok (plaintext, steps),
        all (Py.between 65 90) plaintext,
        size plaintext
        = (size (text_to_numbers ucd ciphertext) %/ Np.shape0 K * Np.shape0 K)%N,
        d_decrypted_blocks steps
        = [seq apply_key (d_inverse_key_matrix steps) b | b <- d_blocks steps]
      & all (all (Py.between 0 25)) (Np.rows (d_inverse_key_matrix steps))].
Proof.
move=> wfK validK n_gt0 det_pos.
have [det_inv [_ det_invE inv_K]] := matrix_mod_inverse_positive wfK validK det_pos.
rewrite (decrypt_eq ucd _ validK n_gt0 inv_K (erefl _)).
set inv := Np.modulo _ _; set numbers := text_to_numbers _ _.
have [flatE sizeE] := full_blocks_take numbers n_gt0.
have wf_i : Np.wf inv by exact: wf_inv.
do 2![eexists]; split; first by [];
  cbn [d_decrypted_blocks d_inverse_key_matrix d_blocks] => //.
- rewrite all_map all_flatten all_map; apply: all_always => v /=.
  have := apply_key_residues inv v; elim: (apply_key inv v) => //= x s IH /andP[Hx Hs].
  by rewrite IH // andbT; move: Hx; rewrite /Py.between /is_true; lia.
- have sizes : all (fun b => size b == Np.shape0 K)%N
                   [seq apply_key inv b | b <- full_blocks numbers (Np.shape0 K)].
    by rewrite all_map; apply: all_always => v /=; rewrite apply_key_size.
  by rewrite size_map (size_flatten_blocks sizes) size_map sizeE.
- rewrite all_map; apply: all_always => r /=.
  rewrite all_map; apply: all_always => x /=.
  rewrite /Py.between /alphabet_size; have := Z.mod_pos_bound x 26.
  by rewrite /is_true; lia.
Qed.

Lemma decrypt_returns_witness :
  exists plaintext steps,
    [/\ decrypt latin1_only (Py.lit "DLDCK") key_matrix_2x2 = Ok (plaintext, steps),
        all (Py.between 65 90) plaintext,
        size plaintext
        = (size (text_to_numbers latin1_only (Py.lit "DLDCK")) %/ 2 * 2)%N,
        d_decrypted_blocks steps
        = [seq apply_key (d_inverse_key_matrix steps) b | b <- d_blocks steps]
      & all (all (Py.between 0 25)) (Np.rows (d_inverse_key_matrix steps))].
Proof.
exact: (@decrypt_returns latin1_only (Py.lit "DLDCK") key_matrix_2x2
          isT isT isT (erefl : 0 < Np.det key_matrix_2x2)).
Defined.

(** ** The round trip of an arbitrary text *)

Lemma eq_map_where (A B : Type) (P : pred A) (f g : A -> B) (s : seq A) :
  (forall x, P x -> f x = g x) -> all P s -> [seq f x | x <- s] = [seq g x | x <- s].
Proof. by move=> fg; elim: s => //= x s IH /andP[/fg -> /IH ->]. Qed.

Lemma vdot_map_mod (r v : seq Z) :
  Np.vdot [seq x mod 26 | x <- r] v mod 26 = Np.vdot r v mod 26.
Proof.
elim: r v => [|x r IH] [|y v] //.
rewrite [map _ _]/= !vdot_cons.
by rewrite Z.add_mod // Z.mul_mod_idemp_l // IH -Z.add_mod.
Qed.

Lemma vdot_mod_r (r v : seq Z) :
  Np.vdot r [seq x mod 26 | x <- v] mod 26 = Np.vdot r v mod 26.
Proof.
elim: r v => [|x r IH] [|y v] //.
rewrite [map _ _]/= !vdot_cons.
by rewrite Z.add_mod // Z.mul_mod_idemp_r // IH -Z.add_mod.
Qed.

Lemma apply_key_mod_r (K : Np.ndarray) (v : seq Z) :
  apply_key K [seq x mod 26 | x <- v] = apply_key K v.
Proof. by apply: eq_map => r /=; rewrite /alphabet_size vdot_mod_r. Qed.

(** Decrypting an encrypted block gives the block back, reduced modulo
    26. *)
Lemma apply_key_inverse_mod (K : Np.ndarray) (det_inv : Z) (b : seq Z) :
  Np.wf K -> is_valid_key_matrix K -> (Np.det K * det_inv) mod 26 = 1 ->
  size b = Np.shape0 K ->
  apply_key (Np.modulo (Np.scale det_inv (Np.adjugate K)) 26) (apply_key K b)
  = [seq x mod 26 | x <- b].
Proof.
move=> wfK validK det_invE size_b.
rewrite -(apply_key_mod_r K b).
apply: (apply_key_inverse wfK (erefl _) (esym (valid_square validK)) det_invE).
- by rewrite size_map.
- rewrite all_map; apply: all_always => x /=.
  by rewrite /Py.between /is_true; have := Z.mod_pos_bound x 26; lia.
Qed.

(** For a valid key of [small_key], of side [n] between 1 and 4 with
    entries between -25 and 25, and of positive determinant, and for
    every text, decrypting the encrypted text returns the letters of the
    numbers modulo 26 of: the numbers of the text, followed by as many 23
    as the padding added letters X to the raw text, cut after the last
    full block of [n]. *)
Theorem roundtrip_any ucd (plaintext : Py.str) (K : Np.ndarray) :
  small_key K -> is_valid_key_matrix K -> 0 < Np.det K -> (0 < Np.shape0 K)%N ->
  let numbers :=
    text_to_numbers ucd plaintext
    ++ nseq (pad_count (size plaintext) (Np.shape0 K)) 23 in
  roundtrip ucd plaintext K
  = Ok [seq num mod 26 + 65
       | num <- take (size numbers %/ Np.shape0 K * Np.shape0 K) numbers].
Proof.
move=> /small_key_wf wfK validK det_pos n_gt0 numbers.
have [det_inv [_ det_invE inv_K]] := matrix_mod_inverse_positive wfK validK det_pos.
set n := Np.shape0 K in n_gt0 numbers *.
rewrite /roundtrip (encrypt_eq ucd plaintext validK n_gt0) [LHS]/= -/n.
rewrite (decrypt_eq ucd _ validK n_gt0 inv_K (erefl _)) [LHS]/= -/n.
rewrite pad_text_eq // text_to_numbers_cat.
have -> : text_to_numbers ucd (nseq (pad_count (size plaintext) n) 88)
          = nseq (pad_count (size plaintext) n) 23.
  by rewrite text_to_numbers_letters ?all_nseq ?orbT // map_nseq.
rewrite -/numbers.
have [flatB _] := full_blocks_take numbers n_gt0.
have sizesB := full_blocks_size numbers n.
set blocks := full_blocks numbers n in flatB sizesB *.
set enc := [seq apply_key K b | b <- blocks].
have sizes_enc : all (fun b => size b == n)%N enc.
  by rewrite all_map; apply: all_always => b /=; rewrite apply_key_size.
rewrite text_to_numbers_of_residues ?all_residues //.
rewrite (full_blocks_flatten n_gt0 sizes_enc) -map_comp.
have dec :
  [seq (apply_key (Np.modulo (Np.scale det_inv (Np.adjugate K)) 26)
        \o apply_key K) b | b <- blocks]
  = [seq [seq x mod 26 | x <- b] | b <- blocks].
  apply: eq_map_where sizesB => b /= /eqP size_b.
  exact: apply_key_inverse_mod.
by rewrite dec -[in LHS]map_flatten flatB -map_comp.
Qed.

Lemma roundtrip_any_witness :
  roundtrip latin1_only (Py.lit "AB C") key_matrix_2x2 = Ok (Py.lit "AB").
Proof.
exact: (@roundtrip_any latin1_only (Py.lit "AB C") key_matrix_2x2
          isT isT (erefl : 0 < Np.det key_matrix_2x2) isT).
Defined.

(** ** How [encrypt] composes *)

Lemma pad_count_dvdn (len bs : nat) : (bs %| len)%N -> pad_count len bs = 0%N.
Proof. by rewrite /pad_count => /eqP ->; rewrite subn0 modnn. Qed.

Lemma pad_count_add (len1 len2 bs : nat) :
  (bs %| len1)%N -> pad_count (len1 + len2) bs = pad_count len2 bs.
Proof. by rewrite /pad_count => /eqP dvd; rewrite -modnDml dvd add0n. Qed.

(** The ciphertext [encrypt] returns, in closed form. *)
Lemma ciphertext_of_encrypt ucd (plaintext : Py.str) (K : Np.ndarray) :
  is_valid_key_matrix K -> (0 < Np.shape0 K)%N ->
  ciphertext_of (encrypt ucd plaintext K)
  = Ok [seq num + 65
       | num <- flatten
           [seq apply_key K b
           | b <- full_blocks
                    (text_to_numbers ucd
                       (plaintext
                        ++ nseq (pad_count (size plaintext) (Np.shape0 K)) 88))
                    (Np.shape0 K)]].
Proof.
by move=> validK n_gt0; rewrite (encrypt_eq ucd plaintext validK n_gt0) pad_text_eq.
Qed.

(** The ciphertext of a ciphertext: nothing is padded, and the blocks are
    the encrypted blocks. *)
Lemma ciphertext_of_encrypt_blocks ucd (K : Np.ndarray) (E : seq (seq Z)) :
  is_valid_key_matrix K -> (0 < Np.shape0 K)%N ->
  all (fun b => size b == Np.shape0 K)%N E -> all (all (Py.between 0 25)) E ->
  ciphertext_of (encrypt ucd [seq num + 65 | num <- flatten E] K)
  = Ok [seq num + 65 | num <- flatten [seq apply_key K b | b <- E]].
Proof.
move=> validK n_gt0 sizes residues.
rewrite ciphertext_of_encrypt // size_map (size_flatten_blocks sizes).
rewrite pad_count_dvdn ?dvdn_mull // cats0.
rewrite text_to_numbers_of_residues ?all_flatten //.
by rewrite full_blocks_flatten.
Qed.

(** The ciphertext of a text that begins with full blocks of letters is
    the ciphertext of these blocks followed by the ciphertext of the
    rest: equal blocks of plaintext give equal blocks of ciphertext. *)
Theorem encrypt_cat ucd (s1 s2 : Py.str) (K : Np.ndarray) :
  is_valid_key_matrix K -> (0 < Np.shape0 K)%N ->
  all ascii_letter s1 -> (Np.shape0 K %| size s1)%N ->
  exists c1 c2,
    [/\ ciphertext_of (encrypt ucd s1 K) = Ok c1,
        ciphertext_of (encrypt ucd s2 K) = Ok c2
      & ciphertext_of (encrypt ucd (s1 ++ s2) K) = Ok (c1 ++ c2)].
Proof.
move=> validK n_gt0 letters dvd.
rewrite !ciphertext_of_encrypt // size_cat pad_count_add // pad_count_dvdn //.
rewrite cats0 -catA (text_to_numbers_cat ucd s1).
set numbers1 := text_to_numbers ucd s1.
have dvd1 : (Np.shape0 K %| size numbers1)%N.
  by rewrite /numbers1 text_to_numbers_letters // size_map.
have [flat1 sizes1] := flatten_full_blocks n_gt0 dvd1.
do 2![eexists]; split; [by [] | by [] |].
by rewrite -{1}flat1 (full_blocks_cat _ n_gt0 sizes1) map_cat flatten_cat map_cat.
Qed.

Lemma encrypt_cat_witness :
  exists c1 c2,
    [/\ ciphertext_of (encrypt latin1_only (Py.lit "HELP") key_matrix_2x2) = Ok c1,
        ciphertext_of (encrypt latin1_only (Py.lit "ME NOW") key_matrix_2x2) = Ok c2
      & ciphertext_of (encrypt latin1_only (Py.lit "HELP" ++ Py.lit "ME NOW")
                         key_matrix_2x2)
        = Ok (c1 ++ c2)].
Proof.
exact: (@encrypt_cat latin1_only (Py.lit "HELP") (Py.lit "ME NOW") key_matrix_2x2
          isT isT isT isT).
Defined.

(** ** Keys that agree modulo 26 *)

Lemma sum_map_mod (A : Type) (F G : A -> Z) (s : seq A) :
  (forall x, F x mod 26 = G x mod 26) ->
  Np.sum [seq F x | x <- s] mod 26 = Np.sum [seq G x | x <- s] mod 26.
Proof.
move=> FG; elim: s => [|x s IH] //.
rewrite /Np.sum /= -!/(Np.sum _).
by rewrite Z.add_mod // FG IH -Z.add_mod.
Qed.

Lemma nth_map0 (g : Z -> Z) (r : seq Z) (j : nat) :
  g 0 = 0 -> nth 0 [seq g x | x <- r] j = g (nth 0 r j).
Proof.
move=> g0; case: (ltnP j (size r)) => [j_lt|j_ge]; first exact: nth_map.
by rewrite !nth_default ?size_map.
Qed.

Lemma del_map (A B : Type) (g : A -> B) (k : nat) (s : seq A) :
  Np.del k [seq g x | x <- s] = [seq g x | x <- Np.del k s].
Proof. by rewrite /Np.del map_cat map_take map_drop. Qed.

Lemma minor_map (g : Z -> Z) (M : seq (seq Z)) (i j : nat) :
  Np.minor [seq [seq g x | x <- r] | r <- M] i j
  = [seq [seq g x | x <- r] | r <- Np.minor M i j].
Proof.
rewrite /Np.minor del_map -!map_comp; apply: eq_map => r /=.
exact: del_map.
Qed.

(** Reducing the entries modulo 26 keeps the determinant modulo 26. *)
Lemma det_rec_mod (n : nat) (M : seq (seq Z)) :
  Np.det_rec n [seq [seq x mod 26 | x <- r] | r <- M] mod 26
  = Np.det_rec n M mod 26.
Proof.
elim: n M => [|n IH] M //; rewrite !det_recS.
apply: sum_map_mod => j.
have hd : head [::] [seq [seq x mod 26 | x <- r] | r <- M]
          = [seq x mod 26 | x <- head [::] M] by case: (M).
rewrite hd nth_map0 // minor_map.
rewrite [LHS]Z.mul_mod // [RHS]Z.mul_mod // IH.
by rewrite (Z.mul_mod_idemp_r (Np.sign j)).
Qed.

Lemma apply_key_mod (K : Np.ndarray) (v : seq Z) :
  apply_key (Np.modulo K 26) v = apply_key K v.
Proof.
rewrite /apply_key /Np.modulo /Np.map_entries [Np.rows _]/= -map_comp.
by apply: eq_map => r /=; rewrite /alphabet_size vdot_map_mod.
Qed.

Lemma is_valid_key_matrix_mod (K : Np.ndarray) :
  is_valid_key_matrix (Np.modulo K 26) = is_valid_key_matrix K.
Proof.
rewrite /is_valid_key_matrix /Np.det /Np.modulo /Np.map_entries.
rewrite [Np.shape0 _]/= [Np.shape1 _]/= [Np.rows _]/=.
by case: eqP => //= _; rewrite /alphabet_size det_rec_mod.
Qed.

(** A key of [small_key], of side at most 4 with entries between -25
    and 25, and the key reduced modulo 26, which has the residue [e + 26]
    for a negative entry [e], are valid together, and [encrypt] returns
    the same ciphertext, or raises, under both. *)
Theorem encrypt_key_mod26 ucd (plaintext : Py.str) (K : Np.ndarray) :
  small_key K ->
  is_valid_key_matrix (Np.modulo K 26) = is_valid_key_matrix K /\
  ciphertext_of (encrypt ucd plaintext (Np.modulo K 26))
  = ciphertext_of (encrypt ucd plaintext K).
Proof.
move=> _; have validE := is_valid_key_matrix_mod K; split=> //.
case validK: (is_valid_key_matrix K); last first.
  by rewrite /encrypt validE validK.
have valid_mod : is_valid_key_matrix (Np.modulo K 26) by rewrite validE.
case: (posnP (Np.shape0 K)) => [n0|n_gt0].
  by rewrite /encrypt validE validK /pad_text [Np.shape0 _]/= n0.
rewrite (ciphertext_of_encrypt ucd plaintext validK n_gt0).
rewrite (@ciphertext_of_encrypt ucd plaintext _ valid_mod n_gt0).
rewrite [Np.shape0 (Np.modulo K 26)]/=.
by congr (Ok (map _ (flatten _))); apply: eq_map => b; exact: apply_key_mod.
Qed.

Lemma encrypt_key_mod26_witness :
  is_valid_key_matrix (Np.modulo signed_key 26) = is_valid_key_matrix signed_key /\
  ciphertext_of (encrypt latin1_only (Py.lit "HELLO") (Np.modulo signed_key 26))
  = ciphertext_of (encrypt latin1_only (Py.lit "HELLO") signed_key).
Proof. exact: (@encrypt_key_mod26 latin1_only (Py.lit "HELLO") signed_key isT). Defined.

(** ** Encryption loses nothing *)

Lemma det_inverse_exists (K : Np.ndarray) :
  is_valid_key_matrix K -> exists x, (Np.det K * x) mod 26 = 1.
Proof.
move=> validK.
have coprime : Z.gcd (Np.det K mod 26) 26 = 1.
  by move: validK; rewrite /is_valid_key_matrix; case: eqP => //= _ /Z.eqb_spec.
have r_pos : 0 < Np.det K mod 26.
  have := Z.mod_pos_bound (Np.det K) 26.
  case: (Z.eqb_spec (Np.det K mod 26) 0) => [r0|]; last lia.
  by move: coprime; rewrite r0.
have [x [_ _ x_inv]] := mod_inverse_positive r_pos (erefl : 1 < 26) coprime.
by exists x; rewrite -Z.mul_mod_idemp_l.
Qed.

Lemma apply_key_inj (K : Np.ndarray) (b1 b2 : seq Z) :
  Np.wf K -> is_valid_key_matrix K ->
  size b1 = Np.shape0 K -> size b2 = Np.shape0 K ->
  all (Py.between 0 25) b1 -> all (Py.between 0 25) b2 ->
  apply_key K b1 = apply_key K b2 -> b1 = b2.
Proof.
move=> wfK validK size1 size2 res1 res2 eq_e.
have [x xE] := det_inverse_exists validK.
have s1 := esym (valid_square validK).
rewrite -(apply_key_inverse wfK (erefl _) s1 xE size1 res1).
by rewrite -[RHS](apply_key_inverse wfK (erefl _) s1 xE size2 res2) eq_e.
Qed.

Lemma map_apply_key_inj (K : Np.ndarray) (B1 B2 : seq (seq Z)) :
  Np.wf K -> is_valid_key_matrix K ->
  all (fun b => (size b == Np.shape0 K) && all (Py.between 0 25) b) B1 ->
  all (fun b => (size b == Np.shape0 K) && all (Py.between 0 25) b) B2 ->
  [seq apply_key K b | b <- B1] = [seq apply_key K b | b <- B2] -> B1 = B2.
Proof.
move=> wfK validK.
elim: B1 B2 => [|b1 B1 IH] [|b2 B2] //=.
case/andP=> /andP[/eqP size1 res1] all1 /andP[/andP[/eqP size2 res2] all2].
case=> eq_b eq_B; congr (_ :: _); last exact: IH.
exact: (apply_key_inj wfK validK).
Qed.

(** Under a valid key of [small_key], of side between 1 and 4 with
    entries between -25 and 25 and of whatever determinant, two texts of
    letters of the same length that have the same ciphertext are the same
    text up to the case of the letters. *)
Theorem encrypt_injective ucd (s1 s2 : Py.str) (K : Np.ndarray) :
  small_key K -> is_valid_key_matrix K -> (0 < Np.shape0 K)%N ->
  all ascii_letter s1 -> all ascii_letter s2 -> size s1 = size s2 ->
  ciphertext_of (encrypt ucd s1 K) = ciphertext_of (encrypt ucd s2 K) ->
  [seq ascii_upper c | c <- s1] = [seq ascii_upper c | c <- s2].
Proof.
move=> /small_key_wf wfK validK n_gt0 letters1 letters2 size_eq.
rewrite !ciphertext_of_encrypt // -size_eq.
set n := Np.shape0 K in n_gt0 *; set k := pad_count _ _.
have padded (s : Py.str) : all ascii_letter s -> all ascii_letter (s ++ nseq k 88).
  by move=> letters; rewrite all_cat letters all_nseq orbT.
set num1 := text_to_numbers ucd (s1 ++ _).
set num2 := text_to_numbers ucd (s2 ++ _).
have num1E : num1 = [seq ascii_upper c - 65 | c <- s1 ++ nseq k 88].
  exact/text_to_numbers_letters/padded.
have num2E : num2 = [seq ascii_upper c - 65 | c <- s2 ++ nseq k 88].
  exact/text_to_numbers_letters/padded.
have dvd1 : (n %| size num1)%N.
  by rewrite num1E size_map size_cat size_nseq pad_count_dvd.
have dvd2 : (n %| size num2)%N.
  by rewrite num2E size_map size_cat size_nseq -size_eq pad_count_dvd.
have [flat1 sizes1] := flatten_full_blocks n_gt0 dvd1.
have [flat2 sizes2] := flatten_full_blocks n_gt0 dvd2.
have res1 : all (all (Py.between 0 25)) (full_blocks num1 n).
  by rewrite -all_flatten flat1; apply/text_to_numbers_residues/padded.
have res2 : all (all (Py.between 0 25)) (full_blocks num2 n).
  by rewrite -all_flatten flat2; apply/text_to_numbers_residues/padded.
have sizes_e (B : seq (seq Z)) :
  all (fun b => size b == n)%N [seq apply_key K b | b <- B].
  by rewrite all_map; apply: all_always => b /=; rewrite apply_key_size.
have inj65 : injective (fun num : Z => num + 65) by move=> x y /= ?; lia.
case=> /(inj_map inj65) eq_flat.
have eq_e : [seq apply_key K b | b <- full_blocks num1 n]
            = [seq apply_key K b | b <- full_blocks num2 n].
  rewrite -(full_blocks_flatten n_gt0 (sizes_e (full_blocks num1 n))) eq_flat.
  exact: full_blocks_flatten.
have eq_B := map_apply_key_inj wfK validK (all_and sizes1 res1) (all_and sizes2 res2) eq_e.
have : num1 = num2 by rewrite -flat1 -flat2 eq_B.
rewrite num1E num2E !map_cat => /(congr1 (take (size s1))).
rewrite take_size_cat ?size_map // size_eq take_size_cat ?size_map //.
move/(congr1 (map (fun num => num + 65))); rewrite -!map_comp.
have up (s : Py.str) :
  [seq ((fun num => num + 65) \o (fun c => ascii_upper c - 65)) c | c <- s]
  = [seq ascii_upper c | c <- s] by apply: eq_map => c /=; lia.
by rewrite !up.
Qed.

Lemma encrypt_injective_witness :
  [seq ascii_upper c | c <- Py.lit "hello"]
  = [seq ascii_upper c | c <- Py.lit "HELLO"].
Proof.
exact: (@encrypt_injective latin1_only (Py.lit "hello") (Py.lit "HELLO")
          key_matrix_2x2 isT isT isT isT isT (erefl _) (erefl _)).
Defined.

(** ** The product of two keys *)

Section Product.

Local Open Scope ring_scope.

Variables (n : nat) (A B : Np.ndarray).
Hypothesis wf_A : Np.wf A.
Hypothesis wf_B : Np.wf B.
Hypothesis shape0_A : Np.shape0 A = n.
Hypothesis shape1_A : Np.shape1 A = n.
Hypothesis shape0_B : Np.shape0 B = n.
Hypothesis shape1_B : Np.shape1 B = n.

Let product : Np.ndarray :=
  Np.NdArray n n
    [seq [seq Np.vdot r (Np.col B j) | j <- iota 0 n] | r <- Np.rows A].

Lemma dot_product : Np.dot A B = Ok product.
Proof. by rewrite /Np.dot shape1_A shape0_B eqxx /= shape0_A shape1_B. Qed.

Lemma size_col (j : nat) : size (Np.col B j) = n.
Proof. by rewrite /Np.col size_map; case/andP: wf_B => /eqP -> _. Qed.

Lemma nth_col (j k : nat) :
  (k < n)%N -> nth 0%Z (Np.col B j) k = nth 0%Z (nth [::] (Np.rows B) k) j.
Proof.
move=> k_lt; rewrite /Np.col (nth_map [::]) //.
by case/andP: wf_B => /eqP -> _; rewrite shape0_B.
Qed.

(** A row of the product against a vector is the row against the image
    of the vector. *)
Lemma vdot_product (r b : seq Z) :
  size r = n -> size b = n ->
  Np.vdot [seq Np.vdot r (Np.col B j) | j <- iota 0 n] b
  = Np.vdot r [seq Np.vdot r' b | r' <- Np.rows B].
Proof.
move=> size_r size_b.
have size_B : size (Np.rows B) = n by case/andP: wf_B => /eqP ->.
rewrite (@vdotE n _ b) ?size_map ?size_iota //.
rewrite (@vdotE n r) ?size_map //.
transitivity (\sum_(j < n) \sum_(k < n)
                nth 0%Z r k * (nth 0%Z (nth [::] (Np.rows B) k) j * nth 0%Z b j)).
  apply: eq_bigr => j _.
  rewrite (nth_map 0%N) ?size_iota // nth_iota // add0n.
  rewrite (vdotE size_r (size_col j)) mulr_suml.
  by apply: eq_bigr => k _; rewrite nth_col // mulrA.
rewrite exchange_big /=; apply: eq_bigr => k _.
rewrite (nth_map [::]) ?size_B // -mulr_sumr; congr (_ * _).
by rewrite (vdotE (wf_row wf_B shape0_B shape1_B (ltn_ord k)) size_b).
Qed.

Lemma apply_key_product (b : seq Z) :
  size b = n -> apply_key product b = apply_key A (apply_key B b).
Proof.
move=> size_b; rewrite /apply_key [Np.rows product]/= -map_comp.
have /all_nthP sizes_A : all (fun r => size r == n) (Np.rows A).
  by case/andP: wf_A => _; rewrite shape1_A.
apply/eq_in_map => r /(nthP [::]) [i i_lt <-] /=.
have size_r : size (nth [::] (Np.rows A) i) = n by apply/eqP/sizes_A.
rewrite vdot_product // /alphabet_size.
have -> : [seq (Np.vdot r' b mod 26)%Z | r' <- Np.rows B]
          = [seq (x mod 26)%Z | x <- [seq Np.vdot r' b | r' <- Np.rows B]].
  by rewrite -map_comp.
by rewrite vdot_mod_r.
Qed.

Lemma mx_of_product :
  mx_of n (Np.rows product) = mx_of n (Np.rows A) *m mx_of n (Np.rows B).
Proof.
apply/matrixP => i j; rewrite !mxE [Np.rows _]/=.
have size_A : size (Np.rows A) = n by case/andP: wf_A => /eqP ->.
rewrite (nth_map [::]) ?size_A // (nth_map 0%N) ?size_iota // nth_iota // add0n.
rewrite (vdotE (wf_row wf_A shape0_A shape1_A (ltn_ord i)) (size_col j)).
by apply: eq_bigr => k _; rewrite !mxE nth_col.
Qed.

Lemma det_product : Np.det product = (Np.det A * Np.det B)%Z.
Proof.
rewrite /Np.det shape0_A shape0_B [Np.shape0 _]/= !det_recE mx_of_product.
by rewrite det_mulmx.
Qed.

End Product.

Lemma valid_product (K1 K2 : Np.ndarray) :
  Np.wf K1 -> Np.wf K2 -> is_valid_key_matrix K1 -> is_valid_key_matrix K2 ->
  Np.shape0 K1 = Np.shape0 K2 ->
  exists product,
    [/\ Np.dot K2 K1 = Ok product, Np.shape0 product = Np.shape0 K1,
        is_valid_key_matrix product
      & forall b, size b = Np.shape0 K1 ->
          apply_key product b = apply_key K2 (apply_key K1 b)].
Proof.
move=> wf1 wf2 valid1 valid2 same_n.
have s1 := esym (valid_square valid1); have s2 := esym (valid_square valid2).
rewrite -same_n in s2.
eexists; split.
- exact: (dot_product (esym same_n) s2 (erefl _) s1).
- by [].
- rewrite /is_valid_key_matrix [Np.shape0 _]/= [Np.shape1 _]/= eqxx /=.
  rewrite (det_product wf2 wf1 (esym same_n) s2 (erefl _)).
  rewrite /alphabet_size Z.gcd_mod_l; apply/Z.eqb_spec/Zgcd_1_rel_prime.
  apply: rel_prime_sym; apply: rel_prime_mult; apply: rel_prime_sym;
    by apply/Zgcd_1_rel_prime/valid_coprime.
- by move=> b size_b; apply: (apply_key_product wf2 wf1 s2 (erefl _) s1).
Qed.

(** Encrypting under [K1] and then under [K2], two valid keys of
    [small_key] of the same side, between 1 and 4, with entries between
    -25 and 25, gives the ciphertext of encrypting once under
    [np.dot(K2, K1) % 26], which is a valid key. *)
Theorem encrypt_twice ucd (plaintext : Py.str) (K1 K2 : Np.ndarray) :
  small_key K1 -> small_key K2 ->
  is_valid_key_matrix K1 -> is_valid_key_matrix K2 ->
  Np.shape0 K1 = Np.shape0 K2 -> (0 < Np.shape0 K1)%N ->
  exists product c1,
    [/\ Np.dot K2 K1 = Ok product,
        is_valid_key_matrix (Np.modulo product 26),
        ciphertext_of (encrypt ucd plaintext K1) = Ok c1
      & ciphertext_of (encrypt ucd c1 K2)
        = ciphertext_of (encrypt ucd plaintext (Np.modulo product 26))].
Proof.
move=> /small_key_wf wf1 /small_key_wf wf2 valid1 valid2 same_n n_gt0.
have [product [dotE shape_p valid_p apply_p]] := valid_product wf1 wf2 valid1 valid2 same_n.
have valid_m : is_valid_key_matrix (Np.modulo product 26).
  by rewrite is_valid_key_matrix_mod.
have n2_gt0 : (0 < Np.shape0 K2)%N by rewrite -same_n.
have nm_gt0 : (0 < Np.shape0 (Np.modulo product 26))%N by rewrite /= shape_p.
exists product; eexists; split=> //.
  exact: ciphertext_of_encrypt.
set numbers := text_to_numbers ucd _.
have sizesB := full_blocks_size numbers (Np.shape0 K1).
set blocks := full_blocks numbers (Np.shape0 K1) in sizesB *.
have sizes1 : all (fun b => size b == Np.shape0 K2)%N
                  [seq apply_key K1 b | b <- blocks].
  by rewrite all_map -same_n; apply: all_always => b /=; rewrite apply_key_size.
have residues1 : all (all (Py.between 0 25)) [seq apply_key K1 b | b <- blocks].
  by rewrite all_map; apply: all_always => b /=; apply: apply_key_residues.
rewrite (ciphertext_of_encrypt_blocks ucd valid2 n2_gt0 sizes1 residues1).
rewrite (ciphertext_of_encrypt ucd plaintext valid_m nm_gt0).
rewrite [Np.shape0 (Np.modulo _ _)]/= shape_p -/numbers -/blocks -map_comp.
congr (Ok (map _ (flatten _))).
apply: eq_map_where sizesB => b /= /eqP size_b.
by rewrite apply_key_mod apply_p.
Qed.

Lemma encrypt_twice_witness :
  exists product c1,
    [/\ Np.dot swap_key key_matrix_2x2 = Ok product,
        is_valid_key_matrix (Np.modulo product 26),
        ciphertext_of (encrypt latin1_only (Py.lit "HELLO") key_matrix_2x2) = Ok c1
      & ciphertext_of (encrypt latin1_only c1 swap_key)
        = ciphertext_of (encrypt latin1_only (Py.lit "HELLO") (Np.modulo product 26))].
Proof.
exact: (@encrypt_twice latin1_only (Py.lit "HELLO") key_matrix_2x2 swap_key
          isT isT isT isT (erefl _) isT).
Defined.

(** ** Decrypting and then encrypting *)

Section LeftInverse.

Local Open Scope ring_scope.

Lemma vdot_unit (n : nat) (i : 'I_n) (b : seq Z) :
  size b = n ->
  Np.vdot [seq (if i == j :> nat then 1%Z else 0%Z) | j <- iota 0 n] b = nth 0%Z b i.
Proof.
move=> size_b; rewrite (@vdotE n _ b) ?size_map ?size_iota //.
rewrite (bigD1 i) //= big1 ?addr0 => [k k_neq_i|].
  rewrite (nth_map 0%N) ?size_iota // nth_iota // add0n.
  have /negbTE -> : (i != k :> nat) by rewrite eq_sym; exact: k_neq_i.
  by rewrite mul0r.
by rewrite (nth_map 0%N) ?size_iota // nth_iota // add0n eqxx mul1r.
Qed.

Variables (K : Np.ndarray) (det_inv : Z).
Hypothesis wf_K : Np.wf K.
Hypothesis valid_K : is_valid_key_matrix K.
Hypothesis det_invE : ((Np.det K * det_inv) mod 26 = 1)%Z.

Let n := Np.shape0 K.
Let inv := Np.modulo (Np.scale det_inv (Np.adjugate K)) 26.

(** Encrypting a decrypted block gives the block back. *)
Lemma apply_key_left_inverse (b : seq Z) :
  size b = n -> all (Py.between 0 25) b ->
  apply_key K (apply_key inv b) = b.
Proof.
move=> size_b residues.
have s1 : Np.shape1 K = n by rewrite /n (valid_square valid_K).
have wf_i : Np.wf inv by exact: wf_inv.
have size_K : size (Np.rows K) = n by case/andP: wf_K => /eqP ->.
rewrite -(apply_key_product wf_K wf_i s1 (erefl _) (erefl _) size_b).
apply: (@eq_from_nth _ 0%Z); first by rewrite size_map /= size_map size_K size_b.
rewrite size_map /= size_map size_K => i i_lt.
rewrite /apply_key [Np.rows _]/= -map_comp (nth_map [::]) ?size_K //=.
rewrite -vdot_map_mod -map_comp.
have -> : [seq ((fun x => x mod 26)%Z \o
                (fun j => Np.vdot (nth [::] (Np.rows K) i) (Np.col inv j))) j
          | j <- iota 0 n]
          = [seq (if i == j :> nat then 1%Z else 0%Z) | j <- iota 0 n].
  apply/eq_in_map => j; rewrite mem_iota add0n /= => j_lt.
  exact: (key_inv_entry wf_K (erefl _) s1 det_invE (Ordinal i_lt) (Ordinal j_lt)).
rewrite (vdot_unit (Ordinal i_lt) size_b) /= Z.mod_small //.
have /(all_nthP 0%Z) /(_ i) := residues.
by rewrite size_b /Py.between /is_true => /(_ i_lt); lia.
Qed.

End LeftInverse.

(** For a valid key of [small_key], of side [n] between 1 and 4 with
    entries between -25 and 25, and of positive determinant, and a
    ciphertext of upper-case letters whose length is a multiple of [n],
    [decrypt] returns a plaintext whose ciphertext is the ciphertext it
    came from. *)
Theorem encrypt_decrypt ucd (ciphertext : Py.str) (K : Np.ndarray) :
  small_key K -> is_valid_key_matrix K -> 0 < Np.det K -> (0 < Np.shape0 K)%N ->
  all (Py.between 65 90) ciphertext -> (Np.shape0 K %| size ciphertext)%N ->
  exists plaintext steps,
    decrypt ucd ciphertext K = Ok (plaintext, steps) /\
    ciphertext_of (encrypt ucd plaintext K) = Ok ciphertext.
Proof.
move=> /small_key_wf wfK validK det_pos n_gt0 upper dvd.
have [det_inv [_ det_invE inv_K]] := matrix_mod_inverse_positive wfK validK det_pos.
rewrite (decrypt_eq ucd _ validK n_gt0 inv_K (erefl _)).
set inv := Np.modulo _ _; set n := Np.shape0 K in n_gt0 dvd *.
do 2![eexists]; split; first by [].
have letters : all ascii_letter ciphertext.
  by apply: sub_all upper => c; rewrite /ascii_letter => ->.
set numbers := text_to_numbers ucd ciphertext.
have numbersE : numbers = [seq c - 65 | c <- ciphertext].
  rewrite /numbers text_to_numbers_letters //.
  apply: eq_map_where upper => c; rewrite /ascii_upper /Py.between /is_true => upper_c.
  by have -> : (97 <=? c) && (c <=? 122) = false by lia.
have residues : all (Py.between 0 25) numbers by exact: text_to_numbers_residues.
have dvd_n : (n %| size numbers)%N by rewrite numbersE size_map.
have [flatB sizesB] := flatten_full_blocks n_gt0 dvd_n.
set blocks := full_blocks numbers n in flatB sizesB *.
have wf_i : Np.wf inv by exact: wf_inv.
have sizesD : all (fun b => size b == n)%N [seq apply_key inv b | b <- blocks].
  by rewrite all_map; apply: all_always => b /=; rewrite apply_key_size.
have residuesD : all (all (Py.between 0 25)) [seq apply_key inv b | b <- blocks].
  by rewrite all_map; apply: all_always => b /=; apply: apply_key_residues.
rewrite (ciphertext_of_encrypt_blocks ucd validK n_gt0 sizesD residuesD) -map_comp.
have residuesB : all (all (Py.between 0 25)) blocks by rewrite -all_flatten flatB.
have -> : [seq (apply_key K \o apply_key inv) b | b <- blocks] = blocks.
  apply: (@map_id_all _ (fun b => (size b == n)%N && all (Py.between 0 25) b)).
    by move=> b /andP[/eqP size_b res_b] /=; apply: apply_key_left_inverse.
  exact: all_and.
rewrite flatB numbersE -map_comp; congr Ok.
by rewrite -[RHS]map_id; apply: eq_map => c /=; lia.
Qed.

Lemma encrypt_decrypt_witness :
  exists plaintext steps,
    decrypt latin1_only (Py.lit "DLDCKX") key_matrix_2x2 = Ok (plaintext, steps) /\
    ciphertext_of (encrypt latin1_only plaintext key_matrix_2x2)
    = Ok (Py.lit "DLDCKX").
Proof.
exact: (@encrypt_decrypt latin1_only (Py.lit "DLDCKX") key_matrix_2x2
          isT isT (erefl : 0 < Np.det key_matrix_2x2) isT isT isT).
Defined.

(** ** The fallback of [generate_random_key_matrix] *)

(** The matrix the attempts return has passed the validator. *)
Lemma first_valid_is_valid draws matrix :
  first_valid draws = Some matrix -> is_valid_key_matrix matrix.
Proof.
elim: draws => //= d draws IH.
by case E: (is_valid_key_matrix d) => // -[<-].
Qed.

Lemma first_valid_none (draws : seq Np.ndarray) :
  all (fun matrix => ~~ is_valid_key_matrix matrix) draws -> first_valid draws = None.
Proof. by elim: draws => //= d draws IH /andP[/negbTE -> /IH]. Qed.

(** For the size 1, when none of the 100 draws is valid,
    [generate_random_key_matrix] raises [IndexError]: the fallback
    assigns to the entry [1, 1] of a 1 by 1 matrix. *)
Theorem generate_random_key_matrix_size_1 (randint : nat -> Np.ndarray) :
  (forall k, (k < 100)%N -> ~~ is_valid_key_matrix (randint k)) ->
  generate_random_key_matrix randint 1 = Raise IndexError.
Proof.
move=> invalid.
have none : first_valid [seq randint k | k <- iota 0 max_attempts] = None.
  apply: first_valid_none; rewrite all_map; apply/allP => j.
  by rewrite mem_iota add0n /= => j_lt; exact: invalid.
by rewrite /generate_random_key_matrix none.
Qed.

Lemma generate_random_key_matrix_size_1_witness :
  generate_random_key_matrix (fun _ => invalid_key) 1 = Raise IndexError.
Proof.
by apply: (@generate_random_key_matrix_size_1 (fun _ => invalid_key)) => k _.
Defined.

(** ** The character mapping *)

(** [get_character_mapping] returns a dictionary of 26 items, whose keys
    are the letters A-Z and no other character; the value of a letter is
    its position in the alphabet, the number [text_to_numbers] gives the
    letter and [numbers_to_text] turns back into it. *)
Theorem get_character_mapping_spec :
  exists mapping,
    [/\ get_character_mapping = Ok mapping, size mapping = 26%N,
        forall c, Py.getitem mapping c
                  = if Py.between 65 90 c then Some (c - 65) else None
      & forall ucd c i, Py.getitem mapping c = Some i ->
          text_to_numbers ucd [:: c] = [:: i] /\ numbers_to_text [:: i] = Ok [:: c]].
Proof.
eexists; split; [by vm_compute; reflexivity | by [] | |].
- move=> c; rewrite /Py.getitem /Py.between.
  do 26![case: Z.eqb_spec => [->|?] //].
  by case: Z.leb_spec => //= ?; case: Z.leb_spec => //= ?; lia.
- move=> ucd c i; rewrite /Py.getitem.
  by do 26![case: Z.eqb_spec => [-> [<-]|_]; first by split; vm_compute].
Qed.

(** ** The verdict of the tests *)

Lemma str_eqP (s t : Py.str) : reflect (s = t) (Py.str_eq s t).
Proof.
elim: s t => [|c s IH] [|d t] /=; try by constructor.
case: Z.eqb_spec => [->|neq] /=; last by constructor; case.
by case: (IH t) => [->|neq]; constructor => // -[].
Qed.

Lemma rstrip_rcons (c : Z) (s : Py.str) (x : Z) :
  Py.rstrip c (rcons s x) = if x =? c then Py.rstrip c s else rcons s x.
Proof.
rewrite /Py.rstrip rev_rcons /=; case: (x =? c) => //=.
by rewrite rev_cons revK.
Qed.

Lemma rstrip_nseq (c : Z) (s : Py.str) (k : nat) :
  Py.rstrip c (s ++ nseq k c) = Py.rstrip c s.
Proof.
elim: k s => [|k IH] s; first by rewrite cats0.
by rewrite /= -cat_rcons IH rstrip_rcons Z.eqb_refl.
Qed.

Lemma size_rstrip (c : Z) (s : Py.str) : (size (Py.rstrip c s) <= size s)%N.
Proof. by rewrite /Py.rstrip size_rev size_drop size_rev leq_subr. Qed.

(** Stripping changes a text exactly when the text ends with the
    character to strip. *)
Lemma rstrip_fixed (c : Z) (s : Py.str) :
  Py.str_eq s (Py.rstrip c s) = ~~ (last (c + 1) s =? c).
Proof.
case/lastP: s => [|s x] /=.
  by case: Z.eqb_spec => //; lia.
rewrite rstrip_rcons last_rcons; case: Z.eqb_spec => [_|_] /=.
- apply/str_eqP => eq_s; have := size_rstrip c s.
  by rewrite -eq_s size_rcons ltnn.
- exact/str_eqP.
Qed.

(** For a valid key of [small_key], of side between 1 and 4 with entries
    between -25 and 25, and of positive determinant, and for a plaintext
    of letters, the verdict of the tests is PASS exactly when the
    plaintext does not end with the letter X, in either case: the tests
    strip a genuine final X together with the padding. *)
Theorem test_verdict_letters ucd (plaintext : Py.str) (K : Np.ndarray) :
  small_key K -> is_valid_key_matrix K -> 0 < Np.det K -> (0 < Np.shape0 K)%N ->
  all ascii_letter plaintext ->
  test_verdict ucd plaintext K
  = Ok (Some (~~ (ascii_upper (last 0 plaintext) =? 88))).
Proof.
move=> /small_key_wf wfK validK det_pos n_gt0 letters.
have := roundtrip_letters_eq ucd wfK validK det_pos n_gt0 letters.
rewrite /roundtrip /test_verdict validK.
case: (encrypt ucd plaintext K) => [encrypted|] //=.
case: (decrypt ucd encrypted.1 K) => [decrypted|] //= [->].
have ascii : all (Py.between 0 127) plaintext.
  apply: sub_all letters => c; rewrite /ascii_letter /Py.between /is_true; lia.
have no_space : Py.remove_char 32 [seq ascii_upper c | c <- plaintext]
                = [seq ascii_upper c | c <- plaintext].
  apply/all_filterP; rewrite all_map; apply: sub_all letters => c /=.
  rewrite /ascii_letter /ascii_upper /Py.between /is_true.
  by case E: ((97 <=? c) && (c <=? 122)); lia.
rewrite upper_ascii // no_space rstrip_nseq rstrip_fixed.
case: plaintext {letters ascii no_space} => [|c s] //=.
by rewrite (last_map ascii_upper).
Qed.

Lemma test_verdict_letters_witness :
  test_verdict latin1_only (Py.lit "box") key_matrix_2x2 = Ok (Some false).
Proof.
exact: (@test_verdict_letters latin1_only (Py.lit "box") key_matrix_2x2
          isT isT (erefl : 0 < Np.det key_matrix_2x2) isT isT).
Defined.

(** ** The helpers of [src/backend/hillcipher.py] *)

(** [_text_to_nums] of [src/backend/hillcipher.py] and [text_to_numbers]
    of [src/cipher.py] return the same numbers for every text: no space
    passes [isalpha], so removing the spaces first changes nothing. *)
Theorem backend_text_to_nums ucd (text : Py.str) :
  Backend._text_to_nums ucd text = text_to_numbers ucd text.
Proof.
rewrite /Backend._text_to_nums /text_to_numbers /Py.remove_char /ord_A /Py.ord.
rewrite -filter_predI; congr map; apply: eq_filter => c /=.
case: Z.eqb_spec => [->|_]; last by rewrite andbT.
by rewrite andbF.
Qed.

(** [_egcd] is [gcd_extended] written as one expression. *)
Lemma backend_egcd a b : Backend._egcd a b = gcd_extended a b.
Proof. by []. Qed.

(** For a modulus above 1, [_modinv] of [src/backend/hillcipher.py]
    returns the inverse in [0, m) of every number coprime to the modulus,
    negative numbers included, and raises [ValueError] for the others. *)
Theorem backend_modinv_spec (a m : Z) :
  1 < m ->
  match Backend._modinv a m with
  | Ok x => [/\ Z.gcd a m = 1, 0 <= x < m & (a * x) mod m = 1]
  | Raise e => e = ValueError "No inverse" /\ Z.gcd a m <> 1
  end.
Proof.
move=> m_gt1; have m0 : m <> 0 by lia.
rewrite /Backend._modinv backend_egcd.
have -> : (m =? 0) = false by lia.
have gcdE : Z.gcd (a mod m) m = Z.gcd a m by rewrite Z.gcd_mod_l.
have r_bound := Z.mod_pos_bound a m.
have := gcd_extended_spec (a mod m) m.
case: (gcd_extended (a mod m) m) => [[g x] y] [bez g0 gpos _].
have gE : g = Z.gcd a m.
  have [r0|r_pos] : a mod m = 0 \/ 0 < a mod m by lia.
  - by rewrite g0 // -gcdE r0 Z.gcd_0_l; lia.
  - by rewrite gpos.
case: Z.eqb_spec => [g1|g_neq1]; rewrite [~~ _]/=.
  split; first by rewrite -gE.
  - by apply: Z.mod_pos_bound; lia.
  - rewrite Z.mul_mod_idemp_r // -Z.mul_mod_idemp_l //.
    have -> : a mod m * x = 1 + (- y) * m by lia.
    by rewrite Z.mod_add // Z.mod_small //; lia.
by split=> //; rewrite -gE.
Qed.

Lemma backend_modinv_spec_witness :
  match Backend._modinv (-1) 26 with
  | Ok x => [/\ Z.gcd (-1) 26 = 1, 0 <= x < 26 & (-1 * x) mod 26 = 1]
  | Raise e => e = ValueError "No inverse" /\ Z.gcd (-1) 26 <> 1
  end.
Proof. exact: (@backend_modinv_spec (-1) 26 (erefl _)). Defined.

(** * The claims *)

(** ** Key validation *)

(** C2 (code bug).  [is_valid_key_matrix] returns False for an array
    that is not square.  For a square one it rounds the float64 that
    [np.linalg.det] returns and answers by the greatest common divisor of
    that integer modulo 26 and 26.  Where the float64 is less than one
    half away from the determinant, this is the answer by the
    determinant, as for the keys [[3,2],[5,7]] and [[2,4],[6,8]].  But a
    float64 of magnitude [2 ^ 53] or more is an even integer, so there the
    validator returns False whatever the determinant is, and for an
    infinity [int] raises [OverflowError].  The key
    [[2 ^ 60 + 1, 0], [0, 1]] has the determinant [2 ^ 60 + 1], which is
    15 modulo 26 and coprime to 26; its float64 copy has the entry
    [2 ^ 60], and with a routine that is exact on the copy the validator
    returns False. *)
Theorem is_valid_key_matrix_rounds_float64 (la : F64.lapack) :
  [/\ forall M, Np.shape0 M <> Np.shape1 M ->
        is_valid_key_matrix_f64 la M = Ok false,
      forall M, Np.shape0 M = Np.shape1 M ->
        near (F64.det la M) (Np.det M) ->
        is_valid_key_matrix_f64 la M = Ok (Z.gcd (Np.det M mod 26) 26 =? 1),
      forall M, Np.shape0 M = Np.shape1 M ->
        F64.wf (F64.det la M) -> large (F64.det la M) ->
        is_valid_key_matrix_f64 la M = Ok false,
      forall M negative, Np.shape0 M = Np.shape1 M ->
        F64.det la M = F64.Infinity negative ->
        is_valid_key_matrix_f64 la M = Raise OverflowError
    & [/\ is_valid_key_matrix_f64 F64.exact_on_copy key_matrix_2x2 = Ok true,
          is_valid_key_matrix_f64 F64.exact_on_copy invalid_key = Ok false,
          Np.det big_key = 2 ^ 60 + 1 /\ Z.gcd ((2 ^ 60 + 1) mod 26) 26 = 1,
          F64.float64_copy big_key = Np.array [:: [:: 2 ^ 60; 0]; [:: 0; 1]]
        & is_valid_key_matrix_f64 F64.exact_on_copy big_key = Ok false]].
Proof.
split=> [M /eqP/negbTE ns|M sq close|M _|M negative sq inf|].
- by rewrite /is_valid_key_matrix_f64 ns.
- by rewrite (is_valid_key_matrix_f64_near close) /is_valid_key_matrix sq eqxx.
- exact: is_valid_key_matrix_f64_large.
- by rewrite /is_valid_key_matrix_f64 sq eqxx inf.
- by split; vm_compute.
Qed.

(** C9.  For a size of 2, 3 or 4 and whatever the random draws are, also
    when all 100 attempts are used up and the fallback is taken,
    [generate_random_key_matrix] returns a matrix the validator
    accepts. *)
Theorem generate_random_key_matrix_valid (randint : nat -> Np.ndarray) (size : nat) :
  (size \in [:: 2; 3; 4])%N ->
  exists2 matrix, generate_random_key_matrix randint size = Ok matrix
                & is_valid_key_matrix matrix.
Proof.
move=> size234; rewrite /generate_random_key_matrix.
case E: (first_valid _) => [matrix|].
  by exists matrix => //; apply: first_valid_is_valid E.
move: size234; rewrite !inE => /or3P[] /eqP ->; vm_compute;
  by eexists; first by reflexivity.
Qed.

Lemma generate_random_key_matrix_valid_witness :
  exists2 matrix,
    generate_random_key_matrix (fun _ => invalid_key) 4 = Ok matrix
    & is_valid_key_matrix matrix.
Proof. exact: (@generate_random_key_matrix_valid (fun _ => invalid_key) 4 isT). Defined.

(** ** The ciphertext *)

(** C10.  For every well-formed valid key of side [n], at least 1, and
    every input string, whatever its characters, [encrypt] returns a
    ciphertext made of the upper-case letters A-Z only whose length is a
    multiple of [n], and every block it has processed is a full block of
    [n] residues in [0,25]. *)
Theorem encrypt_ciphertext_letters ucd (plaintext : Py.str) (K : Np.ndarray) :
  Np.wf K -> is_valid_key_matrix K -> (0 < Np.shape0 K)%N ->
  exists ciphertext steps,
    [/\ encrypt ucd plaintext K = Ok (ciphertext, steps),
        all (Py.between 65 90) ciphertext,
        (Np.shape0 K %| size ciphertext)%N
      & all (fun b => (size b == Np.shape0 K) && all (Py.between 0 25) b)
            (e_encrypted_blocks steps)].
Proof.
move=> wfK validK posK; rewrite (encrypt_eq ucd plaintext validK posK).
set blocks := full_blocks _ _.
do 2![eexists]; split; first by [].
- rewrite all_map all_flatten all_map; apply: all_always => v /=.
  have := apply_key_residues K v; elim: (apply_key K v) => //= x s IH /andP[Hx Hs].
  rewrite IH // andbT; move: Hx; rewrite /Py.between /is_true; lia.
- rewrite size_map (@size_flatten_blocks _ (Np.shape0 K)) ?dvdn_mull //.
  by rewrite all_map; apply: all_always => v /=; rewrite apply_key_size.
- rewrite /= all_map; apply: all_always => v /=.
  by rewrite apply_key_size // eqxx apply_key_residues.
Qed.

Lemma encrypt_ciphertext_letters_witness :
  exists ciphertext steps,
    [/\ encrypt latin1_only (Py.lit "HELLO") key_matrix_2x2
          = Ok (ciphertext, steps),
        all (Py.between 65 90) ciphertext,
        (Np.shape0 key_matrix_2x2 %| size ciphertext)%N
      & all (fun b => (size b == Np.shape0 key_matrix_2x2)
                      && all (Py.between 0 25) b)
            (e_encrypted_blocks steps)].
Proof.
exact: (@encrypt_ciphertext_letters latin1_only (Py.lit "HELLO")
          key_matrix_2x2 isT isT isT).
Defined.

(** ** The worked example *)

(** The ciphertext of "HELLO" under the key [[3,2],[5,7]] *)
Lemma encrypt_hello_ciphertext (ucd : Py.unicode_tail) :
  exists steps,
    encrypt ucd (Py.lit "HELLO") key_matrix_2x2 = Ok (Py.lit "DLDCKX", steps).
Proof. by eexists; vm_compute; reflexivity. Qed.

(** C8, as the code computes it.  The plaintext "HELLO" has the numbers
    [7,4,11,11,14]; padded to "HELLOX" it has the numbers
    [7,4,11,11,14,23], in the blocks [[7,4],[11,11],[14,23]].  Under the
    key [[3,2],[5,7]] the first block becomes
    [(3*7+2*4) mod 26 = 3] and [(5*7+7*4) mod 26 = 11], so the
    ciphertext begins with "DL"; it is "DLDCKX". *)
Theorem encrypt_hello (ucd : Py.unicode_tail) :
  [/\ text_to_numbers ucd (Py.lit "HELLO") = [:: 7; 4; 11; 11; 14],
      (3 * 7 + 2 * 4) mod 26 = 3 /\ (5 * 7 + 7 * 4) mod 26 = 11
    & exists steps,
        [/\ encrypt ucd (Py.lit "HELLO") key_matrix_2x2
              = Ok (Py.lit "DLDCKX", steps),
            e_padded_text steps = Py.lit "HELLOX",
            e_text_numbers steps = [:: 7; 4; 11; 11; 14; 23],
            e_blocks steps = [:: [:: 7; 4]; [:: 11; 11]; [:: 14; 23]]
          & e_encrypted_blocks steps = [:: [:: 3; 11]; [:: 3; 2]; [:: 10; 23]]]].
Proof.
split; [by vm_compute | by [] |].
by eexists; split; vm_compute; reflexivity.
Qed.

(** C8, as the specification words it: the first block does not become
    11 and 11, and the ciphertext does not begin with "LL". *)
Lemma encrypt_hello_not_LL :
  ~ exists ucd ciphertext steps,
      [/\ encrypt ucd (Py.lit "HELLO") key_matrix_2x2 = Ok (ciphertext, steps),
          take 2 (e_final_numbers steps) = [:: 11; 11]
        & take 2 ciphertext = Py.lit "LL"].
Proof.
move=> [ucd [ciphertext [steps [enc _ LL]]]].
have [steps' enc'] := encrypt_hello_ciphertext ucd.
by move: enc; rewrite enc' => -[cE _]; move: LL; rewrite -cE.
Qed.

(** ** Where the code departs from its documentation *)

(** C5.  [numbers_to_text] does not reduce modulo 26: 26 becomes the
    character after 'Z' and not 'A', and -66 makes [chr] raise. *)
Theorem numbers_to_text_does_not_wrap :
  [/\ numbers_to_text [:: 26] = Ok (Py.lit "["),
      Backend._nums_to_text [:: 26] = Ok (Py.lit "A"),
      numbers_to_text [:: -66]
        = Raise (ValueError "chr() arg not in range(0x110000)")
    & Backend._nums_to_text [:: -66] = Ok (Py.lit "M")].
Proof. by split; vm_compute. Qed.

(** C6.  [text_to_numbers] keeps every character [str.isalpha] accepts:
    the letter e with acute accent (U+00E9) is upper-cased to U+00C9,
    kept, and mapped to 201 - 65 = 136, outside [0,25]. *)
Theorem text_to_numbers_keeps_accented_letter (ucd : Py.unicode_tail) :
  text_to_numbers ucd [:: 233] = [:: 136] /\
  text_to_numbers ucd (Py.lit "e") = [:: 4].
Proof. by split; vm_compute. Qed.

(** C3.  The key [[1,2],[3,5]] has determinant -1, which is 25 modulo 26:
    the validator accepts it.  [matrix_mod_inverse] hands the determinant
    to [mod_inverse] without reducing it, [gcd_extended] returns the
    greatest common divisor with the sign of its first argument, -1, and
    [decrypt] raises "Cannot find inverse of key matrix" for every
    ciphertext. *)
Theorem decrypt_fails_after_validation (ucd : Py.unicode_tail) (ciphertext : Py.str) :
  [/\ is_valid_key_matrix negative_key = true,
      Np.det negative_key = -1,
      gcd_extended (-1) 26 = (-1, 1, 0),
      mod_inverse (-1) 26 = None /\ HillCypher._mod_inverse (-1) 26 = Ok 25
    & decrypt ucd ciphertext negative_key
        = Raise (ValueError "Cannot find inverse of key matrix")].
Proof. by split; vm_compute. Qed.

(** C7.  The matrix that swaps the two letters of a block is valid and is
    its own inverse modulo 26, and [matrix_mod_inverse] computes no
    inverse for it: its determinant is -1. *)
Theorem matrix_mod_inverse_misses_swap :
  [/\ is_valid_key_matrix swap_key = true,
      Np.det swap_key = -1,
      Np.dot swap_key swap_key = Ok (Np.eye 2)
    & matrix_mod_inverse swap_key = Ok None].
Proof. by split; vm_compute. Qed.

(** C4.  [encrypt] pads the text before it encodes it.  "AB C" has four
    characters, so nothing is appended under a key of side 2; its three
    letters make one full block, and the letter C is in no block. *)
Theorem encrypt_pads_before_encoding (ucd : Py.unicode_tail) :
  exists steps,
    [/\ encrypt ucd (Py.lit "AB C") key_matrix_2x2 = Ok (Py.lit "CH", steps),
        e_padded_text steps = Py.lit "AB C",
        e_text_numbers steps = [:: 0; 1; 2],
        e_blocks steps = [:: [:: 0; 1]]
      & HillCypher.encrypt_numbers ucd 2 (Py.lit "AB C") = Ok [:: 0; 1; 2; 23]].
Proof. by eexists; split; vm_compute; reflexivity. Qed.

(** C1.  The round trip through [encrypt] and [decrypt] loses the letter
    C of "AB C" under the key [[3,2],[5,7]], and raises under the valid
    key [[1,2],[3,5]]. *)
Theorem roundtrip_failures (ucd : Py.unicode_tail) :
  [/\ is_valid_key_matrix key_matrix_2x2 = true,
      text_to_numbers ucd (Py.lit "AB C") = [:: 0; 1; 2],
      roundtrip ucd (Py.lit "AB C") key_matrix_2x2 = Ok (Py.lit "AB"),
      is_valid_key_matrix negative_key = true
    & roundtrip ucd (Py.lit "HI") negative_key
        = Raise (ValueError "Cannot find inverse of key matrix")].
Proof. by split; vm_compute. Qed.
